(** * minimongo: the query post-processing and upsert utilities of [src/utils.ts]

    A shallow embedding of [processFind], [filterFields], [createUid],
    [processNearOperator], [getDistance], [processGeoIntersectsOperator] and
    [regularizeUpsert], with the properties their specification states.

    Conventions of the embedding.
    - A JavaScript value is a [value]; an object is the list of its own
      enumerable properties in enumeration order, an array is the list of its
      elements (a hole is read as [VUndefined]).  A property that is added
      is listed last, also where the language lists an integer key before
      the others.  Properties inherited from prototypes (methods such as
      [toString]) are not part of the model.
    - A JavaScript number is [NaN] or an exact rational; the infinities and
      the rounding of IEEE doubles are not modelled.
    - The module is compiled as an ES module, hence strict-mode code: an
      assignment to, or a deletion of, a property that cannot be written or
      deleted throws a [TypeError].
    - Exceptions are the [Err] results of the [result] monad. *)

From Stdlib Require Import List String Ascii Bool Arith ZArith QArith Qcanon Qround.
From Stdlib Require Import DecimalString Lia Sorting.Sorted Sorting.Permutation.
Import ListNotations.

Local Close Scope Qc_scope.
Local Close Scope Q_scope.
Local Open Scope nat_scope.
Local Open Scope string_scope.
Local Open Scope list_scope.

(* ================================================================== *)
(** ** Numbers *)

Inductive number : Type :=
| NaN
| Num (q : Qc).

Definition num_of_Z (z : Z) : number := Num (Q2Qc (inject_Z z)).

(** [a < b], [a <= b], [a >= b] and [a === b] on numbers: every comparison
    with [NaN] is false. *)
Definition num_ltb (a b : number) : bool :=
  match a, b with
  | Num x, Num y => negb (Qle_bool y x)
  | _, _ => false
  end.

Definition num_leb (a b : number) : bool :=
  match a, b with
  | Num x, Num y => Qle_bool x y
  | _, _ => false
  end.

Definition num_geb (a b : number) : bool := num_leb b a.

Definition num_eqb (a b : number) : bool :=
  match a, b with
  | Num x, Num y => Qeq_bool x y
  | _, _ => false
  end.

(** Truncation towards zero, the [ToIntegerOrInfinity] of the language. *)
Definition Qtrunc (q : Q) : Z :=
  if Qle_bool 0 q then Qfloor q else (- Qfloor (- q))%Z.

(** [x | 0]: [ToInt32]. *)
Definition to_int32 (n : number) : Z :=
  match n with
  | NaN => 0
  | Num q =>
      let m := (Qtrunc q mod 4294967296)%Z in
      if (m <? 2147483648)%Z then m else (m - 4294967296)%Z
  end.

(** lodash [toInteger] on a number. *)
Definition toInteger (n : number) : Z :=
  match n with
  | NaN => 0
  | Num q => Qtrunc q
  end.

(* ================================================================== *)
(** ** Values *)

Unset Elimination Schemes.
Inductive value : Type :=
| VUndefined
| VNull
| VBool (b : bool)
| VNum (n : number)
| VStr (s : string)
| VArr (elems : list value)
| VObj (props : list (string * value)).
Set Elimination Schemes.

Section ValueInduction.
Variable P : value -> Prop.
Hypothesis Hundef : P VUndefined.
Hypothesis Hnull : P VNull.
Hypothesis Hbool : forall b, P (VBool b).
Hypothesis Hnum : forall n, P (VNum n).
Hypothesis Hstr : forall s, P (VStr s).
Hypothesis Harr : forall l, Forall P l -> P (VArr l).
Hypothesis Hobj : forall ps, Forall (fun kv => P (snd kv)) ps -> P (VObj ps).

Fixpoint value_ind (v : value) : P v :=
  match v with
  | VUndefined => Hundef
  | VNull => Hnull
  | VBool b => Hbool b
  | VNum n => Hnum n
  | VStr s => Hstr s
  | VArr l =>
      Harr l ((fix go (l : list value) : Forall P l :=
                 match l with
                 | [] => Forall_nil _
                 | x :: r => Forall_cons x (value_ind x) (go r)
                 end) l)
  | VObj ps =>
      Hobj ps ((fix go (ps : list (string * value))
                 : Forall (fun kv => P (snd kv)) ps :=
                  match ps with
                  | [] => Forall_nil _
                  | kv :: r => Forall_cons kv (value_ind (snd kv)) (go r)
                  end) ps)
  end.
End ValueInduction.

(** [!!v] *)
Definition truthy (v : value) : bool :=
  match v with
  | VUndefined | VNull => false
  | VBool b => b
  | VNum NaN => false
  | VNum (Num q) => negb (Qeq_bool q 0)
  | VStr s => negb (String.eqb s "")
  | VArr _ | VObj _ => true
  end.

(** [v == null] *)
Definition nullish (v : value) : bool :=
  match v with
  | VUndefined | VNull => true
  | _ => false
  end.

(** [a === b].  Primitives are compared by value.  The model has no object
    identity: two objects or arrays are taken to be distinct references. *)
Definition strict_eq (a b : value) : bool :=
  match a, b with
  | VUndefined, VUndefined => true
  | VNull, VNull => true
  | VBool x, VBool y => Bool.eqb x y
  | VNum x, VNum y => num_eqb x y
  | VStr x, VStr y => String.eqb x y
  | _, _ => false
  end.

(* ================================================================== *)
(** ** Exceptions *)

Inductive error : Type :=
| TypeError                 (* property access on undefined/null, illegal write or delete *)
| SyntaxError               (* JSON.parse of a non-JSON text *)
| UnsupportedType           (* new Error("Unsupported type") *)
| BaseNeedsId               (* new Error("Base needs _id") *)
| BaseNeedsSameId           (* new Error("Base needs same _id") *)
| RangeError                (* invalid array length *)
| External (callee : string) (* thrown inside an imported function *)
| Unmodelled (what : string). (* the operation leaves the fragment of the language that [value] covers *)

Inductive result (A : Type) : Type :=
| Ok (a : A)
| Err (e : error).
Arguments Ok {A} a.
Arguments Err {A} e.

Definition bind {A B : Type} (r : result A) (k : A -> result B) : result B :=
  match r with
  | Ok a => k a
  | Err e => Err e
  end.

Notation "x <- c ;; k" := (bind c (fun x => k))
  (at level 61, c at next level, right associativity).


(** [_.map] and [_.filter] with a callback that may throw. *)
Fixpoint mapM {A B : Type} (f : A -> result B) (l : list A) : result (list B) :=
  match l with
  | [] => Ok []
  | x :: r => y <- f x ;; ys <- mapM f r ;; Ok (y :: ys)
  end.

Fixpoint filterM {A : Type} (f : A -> result bool) (l : list A) : result (list A) :=
  match l with
  | [] => Ok []
  | x :: r => b <- f x ;; ys <- filterM f r ;; Ok (if b then x :: ys else ys)
  end.

(* ================================================================== *)
(** ** Strings and property keys *)

(** [s.split(".")]: never empty. *)
Fixpoint split_on (sep : ascii) (s : string) : list string :=
  match s with
  | EmptyString => [ "" ]
  | String c r =>
      if Ascii.eqb c sep then "" :: split_on sep r
      else match split_on sep r with
           | h :: t => String c h :: t
           | [] => [ String c "" ]
           end
  end.

Definition split_dot (field : string) : list string := split_on "." field.

Definition digit_of (c : ascii) : option N :=
  let n := N_of_ascii c in
  if ((48 <=? n) && (n <=? 57))%N then Some (n - 48)%N else None.

Fixpoint parse_digits (s : string) (acc : N) : option N :=
  match s with
  | EmptyString => Some acc
  | String c r =>
      match digit_of c with
      | Some d => parse_digits r (10 * acc + d)%N
      | None => None
      end
  end.

(** A property key that is an array index: a canonical decimal numeral. *)
Definition array_index (k : string) : option nat :=
  match k with
  | EmptyString => None
  | String "0" EmptyString => Some 0
  | String "0" _ => None
  | _ => option_map N.to_nat (parse_digits k 0%N)
  end.

Definition num_of_nat (n : nat) : number := num_of_Z (Z.of_nat n).

(* ================================================================== *)
(** ** Property access *)

Fixpoint assoc (k : string) (ps : list (string * value)) : option value :=
  match ps with
  | [] => None
  | (k', v) :: r => if String.eqb k k' then Some v else assoc k r
  end.

(** [v[k]] on a value that is not [undefined] or [null]. *)
Definition get (v : value) (k : string) : value :=
  match v with
  | VObj ps => match assoc k ps with Some x => x | None => VUndefined end
  | VArr l =>
      if String.eqb k "length" then VNum (num_of_nat (List.length l))
      else match array_index k with
           | Some i => nth i l VUndefined
           | None => VUndefined
           end
  | VStr s =>
      if String.eqb k "length" then VNum (num_of_nat (String.length s))
      else match array_index k with
           | Some i => match String.get i s with
                       | Some c => VStr (String c EmptyString)
                       | None => VUndefined
                       end
           | None => VUndefined
           end
  | _ => VUndefined
  end.

(** [v[k]], throwing on [undefined] and [null]. *)
Definition get_prop (v : value) (k : string) : result value :=
  if nullish v then Err TypeError else Ok (get v k).

Fixpoint replace_assoc (k : string) (x : value) (ps : list (string * value))
  : list (string * value) :=
  match ps with
  | [] => [ (k, x) ]
  | (k', v) :: r =>
      if String.eqb k k' then (k, x) :: r else (k', v) :: replace_assoc k x r
  end.

Fixpoint replace_nth (i : nat) (x : value) (l : list value) : list value :=
  match i, l with
  | O, _ :: r => x :: r
  | O, [] => [ x ]
  | S i', y :: r => y :: replace_nth i' x r
  | S i', [] => VUndefined :: replace_nth i' x []
  end.

(** The array length a value denotes, if it is one. *)
Definition as_length (x : value) : option nat :=
  match x with
  | VNum (Num q) =>
      if Qeq_bool q (inject_Z (Qfloor q)) && Qle_bool 0 q
         && negb (Qle_bool (inject_Z 4294967296) q)
      then Some (Z.to_nat (Qfloor q)) else None
  | _ => None
  end.

Definition resize (n : nat) (l : list value) : list value :=
  firstn n l ++ repeat VUndefined (n - List.length l).

(** [o[k] = x] in strict mode. *)
Definition set_prop (o : value) (k : string) (x : value) : result value :=
  match o with
  | VUndefined | VNull => Err TypeError
  | VBool _ | VNum _ | VStr _ => Err TypeError
  | VObj ps => Ok (VObj (replace_assoc k x ps))
  | VArr l =>
      if String.eqb k "length" then
        match as_length x with
        | Some n => Ok (VArr (resize n l))
        | None => Err RangeError
        end
      else match array_index k with
           | Some i => Ok (VArr (replace_nth i x l))
           | None => Err (Unmodelled "named property of an array")
           end
  end.

Fixpoint remove_assoc (k : string) (ps : list (string * value))
  : list (string * value) :=
  match ps with
  | [] => []
  | (k', v) :: r =>
      if String.eqb k k' then remove_assoc k r else (k', v) :: remove_assoc k r
  end.

(** [delete o[k]] in strict mode, on a value that is not [undefined] or [null]. *)
Definition delete_prop (o : value) (k : string) : result value :=
  match o with
  | VObj ps => Ok (VObj (remove_assoc k ps))
  | VArr l =>
      if String.eqb k "length" then Err TypeError
      else match array_index k with
           | Some i => if Nat.ltb i (List.length l) then Ok (VArr (replace_nth i VUndefined l))
                       else Ok o
           | None => Ok o
           end
  | VStr s =>
      if String.eqb k "length" then Err TypeError
      else match array_index k with
           | Some i => if Nat.ltb i (String.length s) then Err TypeError else Ok o
           | None => Ok o
           end
  | _ => Ok o
  end.

(** The writes made through a reference held in [o[k]] show in [o]: the
    value now held there, when [k] is a property of [o]. *)
Fixpoint update_assoc (k : string) (x : value) (ps : list (string * value))
  : list (string * value) :=
  match ps with
  | [] => []
  | (k', v) :: r =>
      if String.eqb k k' then (k, x) :: r else (k', v) :: update_assoc k x r
  end.

Definition put_back (o : value) (k : string) (x : value) : value :=
  match o with
  | VObj ps => VObj (update_assoc k x ps)
  | VArr l =>
      match array_index k with
      | Some i => if Nat.ltb i (List.length l) then VArr (replace_nth i x l) else o
      | None => o
      end
  | _ => o
  end.

Definition string_of_nat (n : nat) : string :=
  DecimalString.NilEmpty.string_of_uint (Nat.to_uint n).

Fixpoint chars (s : string) : list value :=
  match s with
  | EmptyString => []
  | String c r => VStr (String c EmptyString) :: chars r
  end.

(** The own enumerable properties of a value, as [for (k in v)],
    [_.keys(v)] and [_.values(v)] see them. *)
Definition entries (v : value) : list (string * value) :=
  match v with
  | VObj ps => ps
  | VArr l => combine (map string_of_nat (seq 0 (List.length l))) l
  | VStr s => combine (map string_of_nat (seq 0 (String.length s))) (chars s)
  | _ => []
  end.

Definition keys (v : value) : list string := map fst (entries v).
Definition values (v : value) : list value := map snd (entries v).

(** [for (x of v)]: arrays and strings are the iterables of the model. *)
Definition iterate (v : value) : result (list value) :=
  match v with
  | VArr l => Ok l
  | VStr s => Ok (chars s)
  | _ => Err TypeError
  end.

(** Operands that the language converts to a number before comparing:
    [undefined] is [NaN], [null] is [0], a boolean is [0] or [1]; the
    conversion of strings and objects is outside the model. *)
Definition to_number (v : value) : result number :=
  match v with
  | VNum n => Ok n
  | VUndefined => Ok NaN
  | VNull => Ok (num_of_Z 0)
  | VBool b => Ok (num_of_Z (if b then 1 else 0))
  | _ => Err (Unmodelled "conversion to a number")
  end.

(* ================================================================== *)
(** ** Sorting *)

Section Sort.
Context {A : Type}.
Variable le : A -> A -> bool.

Fixpoint insert_by (x : A) (l : list A) : list A :=
  match l with
  | [] => [ x ]
  | y :: r => if le x y then x :: l else y :: insert_by x r
  end.

(** A stable sort: of two elements that compare equal the one that came
    first stays first. *)
Definition stable_sort (l : list A) : list A := fold_right insert_by [] l.
End Sort.

(** lodash [compareAscending] on two numbers. *)
Definition compareAscending (v o : number) : Z :=
  match v, o with
  | NaN, _ => 1
  | Num _, NaN => (-1)
  | Num x, Num y =>
      if negb (Qle_bool x y) then 1 else if negb (Qle_bool y x) then (-1) else 0
  end%Z.

(** [_.sortBy(l, key)]: ascending by [compareAscending] of the keys, ties in
    the order of [l]. *)
Definition sortBy {A : Type} (key : A -> number) (l : list A) : list A :=
  stable_sort (fun a b => (compareAscending (key a) (key b) <=? 0)%Z) l.

(** [l.sort(cmp)]: stable; [a] stays before [b] unless [cmp(a, b) > 0]; the
    [undefined] elements go last and are not compared. *)
Definition is_undefined (v : value) : bool :=
  match v with VUndefined => true | _ => false end.

Definition js_sort (cmp : value -> value -> number) (l : list value) : list value :=
  stable_sort (fun a b => negb (num_ltb (num_of_Z 0) (cmp a b)))
              (filter (fun v => negb (is_undefined v)) l)
  ++ filter is_undefined l.

(** [_.slice(l, start)] and [_.take(l, n)] on integers. *)
Definition slice_from (start : Z) (l : list value) : list value :=
  let len := Z.of_nat (List.length l) in
  let start' := if (start <? 0)%Z
                then (if (len <? - start)%Z then 0 else len + start)%Z
                else start in
  skipn (Z.to_nat start') l.

Definition take (n : Z) (l : list value) : list value :=
  firstn (Z.to_nat (if (n <? 0)%Z then 0%Z else n)) l.

(** lodash [toInteger] on a value. *)
Definition toInteger_value (v : value) : result Z :=
  n <- to_number v ;; Ok (toInteger n).

(* ================================================================== *)
(** ** [createUid] *)

Definition num_mul (a b : number) : number :=
  match a, b with
  | Num x, Num y => Num (Qcmult x y)
  | _, _ => NaN
  end.

Definition hex_alphabet : string := "0123456789abcdef".

Definition hex_digit (d : Z) : ascii :=
  match String.get (Z.to_nat d) hex_alphabet with
  | Some c => c
  | None => "0"%char
  end.

Fixpoint hex_digits (fuel : nat) (n : Z) (acc : string) : string :=
  match fuel with
  | O => acc
  | S f =>
      let acc' := String (hex_digit (n mod 16)) acc in
      if (n <? 16)%Z then acc' else hex_digits f (n / 16) acc'
  end.

(** [v.toString(16)] on an integer. *)
Definition toString16 (v : Z) : string :=
  if (v <? 0)%Z
  then String "-" (hex_digits (S (Z.to_nat (Z.log2 (- v)))) (- v) "")
  else hex_digits (S (Z.to_nat (Z.log2 v))) v "".

Definition uid_pattern : string := "xxxxxxxxxxxx4xxxyxxxxxxxxxxxxxxx".

Section Uid.
(** [random n] is what the [n]-th call of [Math.random()] returns; the
    number of calls made so far is threaded through. *)
Variable random : nat -> Qc.

(** The callback of [replace]. *)
Definition uid_char (c : ascii) (n : nat) : string :=
  let r := to_int32 (num_mul (Num (random n)) (num_of_Z 16)) in
  let v := if Ascii.eqb c "x" then r else Z.lor (Z.land r 3) 8 in
  toString16 v.

(** [pattern.replace(/[xy]/g, callback)] *)
Fixpoint replace_xy (pattern : string) (n : nat) : string * nat :=
  match pattern with
  | EmptyString => (EmptyString, n)
  | String c rest =>
      if Ascii.eqb c "x" || Ascii.eqb c "y" then
        let d := uid_char c n in
        let (s, n') := replace_xy rest (S n) in
        (String.append d s, n')
      else
        let (s, n') := replace_xy rest n in
        (String c s, n')
  end.

Definition createUid (n : nat) : string * nat := replace_xy uid_pattern n.
End Uid.

(* ================================================================== *)
(** ** [regularizeUpsert] *)

(** An argument that may be a callback; callbacks are opaque. *)
Inductive arg : Type :=
| Fn (name : string)
| Val (v : value).

Definition isFunction (a : arg) : bool :=
  match a with Fn _ => true | Val _ => false end.

Definition isArray (v : value) : bool :=
  match v with VArr _ => true | _ => false end.

(** [{ doc, base }]; an absent base is [VUndefined].  The documents and
    bases of one call are taken to be distinct objects. *)
Record upsert_item : Type := { doc : value; base : value }.

(** [v[i]] for an index [i]. *)
Definition get_index (v : value) (i : nat) : value :=
  match v with
  | VArr l => nth i l VUndefined
  | _ => get v (string_of_nat i)
  end.

(** [i < bases.length ? bases[i] : undefined] *)
Definition base_at (bases : value) (i : nat) : result value :=
  len <- to_number (get bases "length") ;;
  Ok (if num_ltb (num_of_nat i) len then get_index bases i else VUndefined).

Fixpoint make_items (docs : list value) (bases : value) (i : nat)
  : result (list upsert_item) :=
  match docs with
  | [] => Ok []
  | d :: r =>
      b <- base_at bases i ;;
      rest <- make_items r bases (S i) ;;
      Ok ({| doc := d; base := b |} :: rest)
  end.

Section Upsert.
Variable random : nat -> Qc.

(** The body of the loop over the items. *)
Definition check_item (it : upsert_item) (n : nat) : result (upsert_item * nat) :=
  id <- get_prop (doc it) "_id" ;;
  dn <- (if truthy id then Ok (doc it, n)
         else let (uid, n') := createUid random n in
              d <- set_prop (doc it) "_id" (VStr uid) ;; Ok (d, n')) ;;
  let (d, n') := dn : value * nat in
  if truthy (base it) && negb (truthy (get (base it) "_id")) then Err BaseNeedsId
  else if truthy (base it) && negb (strict_eq (get (base it) "_id") (get d "_id"))
       then Err BaseNeedsSameId
       else Ok ({| doc := d; base := base it |}, n').

Fixpoint check_items (items : list upsert_item) (n : nat)
  : result (list upsert_item * nat) :=
  match items with
  | [] => Ok ([], n)
  | it :: r =>
      x <- check_item it n ;;
      y <- check_items r (snd x) ;;
      Ok (fst x :: fst y, snd y)
  end.

(** Returns [[items, success, error]] and the number of random draws made. *)
Definition regularizeUpsert (docs : value) (bases success error : arg) (n : nat)
  : result (list upsert_item * arg * arg * nat) :=
  let '(bases, success, error) :=
    if isFunction bases then (Val VUndefined, bases, success)
    else (bases, success, error) in
  let bases := match bases with Val v => v | Fn _ => VUndefined end in
  let '(docs, bases) :=
    match docs with
    | VArr l => (l, if truthy bases then bases else VArr [])
    | _ => ([ docs ], VArr [ bases ])
    end in
  items <- make_items docs bases 0 ;;
  r <- check_items items n ;;
  Ok (fst r, success, error, snd r).
End Upsert.

(* ================================================================== *)
(** ** The imported functions *)

(** [nearestPointOnLine] returns a point feature whose [properties] carry
    the distance, the segment index and the location along the line. *)
Record nearest_point : Type :=
  { dist : number; index : number; location : number }.

(** The functions that [utils.ts] imports from [./selector] and from turf.
    [None] is a call that throws.  The compiled selector and comparator are
    taken to be total functions.  The turf functions are the ones called with
    [{ units: "meters" }]. *)
Record imports : Type :=
  { compileDocumentSelector : value -> option (value -> bool);
    compileSort : value -> option (value -> value -> number);
    distance : value -> value -> option number;
    nearestPointOnLine : value -> value -> option nearest_point;
    booleanPointInPolygon : value -> value -> option bool;
    intersect : value -> value -> option value;
    booleanCrosses : value -> value -> option bool;
    booleanWithin : value -> value -> option bool }.

Definition ext {A : Type} (callee : string) (r : option A) : result A :=
  match r with
  | Some a => Ok a
  | None => Err (External callee)
  end.

(** [{ doc, distance }] *)
Record near_item : Type := { n_doc : value; n_distance : number }.

Section Geo.
Variable lib : imports.

(* ---------------------------------------------------------------- *)
(** *** [getDistance] *)

Definition getDistance (from to : value) : result number :=
  t <- get_prop to "type" ;;
  if strict_eq t (VStr "Point") then
    ext "distance" (distance lib from to)
  else if strict_eq t (VStr "LineString") then
    nearest <- ext "nearestPointOnLine" (nearestPointOnLine lib to from) ;;
    Ok (dist nearest)
  else Err UnsupportedType.

(* ---------------------------------------------------------------- *)
(** *** [processNearOperator] *)

(** [doc[key] && (doc[key].type === "Point" || doc[key].type === "LineString")] *)
Definition is_point_or_line (key : string) (d : value) : result bool :=
  dk <- get_prop d key ;;
  Ok (truthy dk
      && (strict_eq (get dk "type") (VStr "Point")
          || strict_eq (get dk "type") (VStr "LineString"))).

(** The body of the loop, for a key whose [$near] has a point geometry. *)
Definition near_step (key : string) (near geo : value) (docs : list value)
  : result (list value) :=
  docs <- filterM (is_point_or_line key) docs ;;
  distances <- mapM (fun d =>
                       x <- getDistance geo (get d key) ;;
                       Ok {| n_doc := d; n_distance := x |}) docs ;;
  let distances :=
    filter (fun it => num_geb (n_distance it) (num_of_Z 0)) distances in
  let distances := sortBy n_distance distances in
  distances <-
    (if truthy (get near "$maxDistance") then
       filterM (fun it =>
                  m <- to_number (get near "$maxDistance") ;;
                  Ok (num_leb (n_distance it) m)) distances
     else Ok distances) ;;
  Ok (map n_doc distances).

Fixpoint near_loop (sel : list (string * value)) (docs : list value)
  : result (list value) :=
  match sel with
  | [] => Ok docs
  | (key, val) :: rest =>
      if negb (nullish val) && truthy (get val "$near") then
        let near := get val "$near" in
        let geo := get near "$geometry" in
        t <- get_prop geo "type" ;;
        if negb (strict_eq t (VStr "Point")) then Ok docs
        else docs <- near_step key near geo docs ;; near_loop rest docs
      else near_loop rest docs
  end.

Definition processNearOperator (selector : value) (docs : list value)
  : result (list value) :=
  near_loop (entries selector) docs.

(* ---------------------------------------------------------------- *)
(** *** [processGeoIntersectsOperator] *)

Definition crosses_or_within (line geo : value) : result bool :=
  c <- ext "booleanCrosses" (booleanCrosses lib line geo) ;;
  if c then Ok true else ext "booleanWithin" (booleanWithin lib line geo).

(** The loop over the lines of a [MultiLineString]. *)
Fixpoint any_line (geo : value) (lines : list value) : result bool :=
  match lines with
  | [] => Ok false
  | line :: rest =>
      let lineGeo := VObj [ ("type", VStr "LineString"); ("coordinates", line) ] in
      len <- get_prop line "length" ;;
      if strict_eq len (VNum (num_of_Z 0)) then any_line geo rest
      else
        b <- crosses_or_within lineGeo geo ;;
        if b then Ok true else any_line geo rest
  end.

(** The callback of the filter. *)
Definition intersects (key : string) (geo d : value) : result bool :=
  dk <- get_prop d key ;;
  if negb (truthy dk) then Ok false
  else
    let t := get dk "type" in
    if strict_eq t (VStr "Point") then
      ext "booleanPointInPolygon" (booleanPointInPolygon lib dk geo)
    else if strict_eq t (VStr "Polygon") || strict_eq t (VStr "MultiPolygon") then
      r <- ext "intersect" (intersect lib dk geo) ;;
      Ok (negb (nullish r))
    else if strict_eq t (VStr "LineString") then
      len <- get_prop (get dk "coordinates") "length" ;;
      if strict_eq len (VNum (num_of_Z 0)) then Ok false
      else crosses_or_within dk geo
    else if strict_eq t (VStr "MultiLineString") then
      lines <- iterate (get dk "coordinates") ;;
      any_line geo lines
    else Ok false.

Fixpoint geo_loop (sel : list (string * value)) (docs : list value)
  : result (list value) :=
  match sel with
  | [] => Ok docs
  | (key, val) :: rest =>
      if negb (nullish val) && truthy (get val "$geoIntersects") then
        let geo := get (get val "$geoIntersects") "$geometry" in
        t <- get_prop geo "type" ;;
        if negb (strict_eq t (VStr "Polygon")) then Ok docs
        else docs <- filterM (intersects key geo) docs ;; geo_loop rest docs
      else geo_loop rest docs
  end.

Definition processGeoIntersectsOperator (selector : value) (docs : list value)
  : result (list value) :=
  geo_loop (entries selector) docs.
End Geo.

(* ================================================================== *)
(** ** [filterFields] *)

(** [JSON.parse(JSON.stringify(v))] below the top level: [None] is a value
    that [stringify] leaves out of an object (and writes as [null] in an
    array). *)
Fixpoint json_copy (v : value) : option value :=
  match v with
  | VUndefined => None
  | VNum NaN => Some VNull
  | VArr l =>
      Some (VArr (map (fun x => match json_copy x with
                                | Some y => y
                                | None => VNull
                                end) l))
  | VObj ps =>
      Some (VObj (flat_map (fun kv => match json_copy (snd kv) with
                                      | Some y => [ (fst kv, y) ]
                                      | None => []
                                      end) ps))
  | _ => Some v
  end.

(** [JSON.parse(JSON.stringify(item))]: [stringify] of [undefined] is
    [undefined], which [parse] rejects. *)
Definition json_clone (item : value) : result value :=
  match json_copy item with
  | Some v => Ok v
  | None => Err SyntaxError
  end.

(** Inclusion: the walk that determines whether the path exists. *)
Definition walk (path : list string) (item : value) : value :=
  fold_left (fun obj pathElem => if truthy obj then get obj pathElem else obj)
            path item.

(** Inclusion: the walk into the path "creating as necessary", then the copy
    of the value.  [to] is the object reached in the new item and [from] the
    one reached in the source item; the result is [to] after the writes.  The
    new item is built from fresh objects, except that a value copied from the
    source is shared with it; the model copies it, which shows no difference
    as long as no listed path runs through a falsy value other than
    [undefined] and [null]. *)
Fixpoint copy_path (path : list string) (from to : value) : result value :=
  match path with
  | [] => Ok to
  | [ last ] =>
      x <- get_prop from last ;;
      set_prop to last x
  | pathElem :: rest =>
      let sub := if truthy (get to pathElem) then get to pathElem else VObj [] in
      to' <- set_prop to pathElem sub ;;
      from' <- get_prop from pathElem ;;
      sub' <- copy_path rest from' sub ;;
      Ok (put_back to' pathElem sub')
  end.

Definition include_field (item newItem : value) (field : string) : result value :=
  let path := split_dot field in
  if nullish (walk path item) then Ok newItem
  else copy_path path item newItem.

Fixpoint foldM {A B : Type} (f : A -> B -> result A) (l : list B) (a : A) : result A :=
  match l with
  | [] => Ok a
  | x :: r => a' <- f a x ;; foldM f r a'
  end.

Definition include_item (fields : value) (item : value) : result value :=
  foldM (include_field item) (keys fields ++ [ "_id" ]) (VObj []).

(** Exclusion: the walk "inside the path", then the deletion.  The result is
    [obj] after the deletion. *)
Fixpoint delete_path (path : list string) (obj : value) : result value :=
  match path with
  | [] => Ok obj
  | [ last ] => if nullish obj then Ok obj else delete_prop obj last
  | pathElem :: rest =>
      if truthy obj then
        sub' <- delete_path rest (get obj pathElem) ;;
        Ok (put_back obj pathElem sub')
      else if nullish obj then Ok obj
      else delete_prop obj (last rest "")
  end.

Definition exclude_field (item : value) (field : string) : result value :=
  delete_path (split_dot field) item.

Definition exclude_item (fields : value) (item : value) : result value :=
  item <- json_clone item ;;
  foldM exclude_field (keys fields) item.

Definition filterFields (items : list value) (fields : value) : result (list value) :=
  let fields := if is_undefined fields then VObj [] else fields in
  if Nat.eqb (List.length (keys fields)) 0 then Ok items
  else
    mapM (fun item =>
            if strict_eq (hd VUndefined (values fields)) (VNum (num_of_Z 1))
            then include_item fields item
            else exclude_item fields item) items.

(* ================================================================== *)
(** ** [processFind] *)

Section Find.
Variable lib : imports.

Definition processFind (items : list value) (selector options : value)
  : result (list value) :=
  pred <- ext "compileDocumentSelector" (compileDocumentSelector lib selector) ;;
  let filtered := filter pred items in
  filtered <- processNearOperator lib selector filtered ;;
  filtered <- processGeoIntersectsOperator lib selector filtered ;;
  filtered <-
    (if truthy options && truthy (get options "sort") then
       cmp <- ext "compileSort" (compileSort lib (get options "sort")) ;;
       Ok (js_sort cmp filtered)
     else Ok filtered) ;;
  filtered <-
    (if truthy options && truthy (get options "skip") then
       start <- toInteger_value (get options "skip") ;;
       Ok (slice_from start filtered)
     else Ok filtered) ;;
  filtered <-
    (if truthy options && truthy (get options "limit") then
       n <- toInteger_value (get options "limit") ;;
       Ok (take n filtered)
     else Ok filtered) ;;
  if truthy options && truthy (get options "fields") then
    filterFields filtered (get options "fields")
  else Ok filtered.
End Find.

(* ================================================================== *)
(** ** The pipeline of the specification *)

(** The seven stages as the specification numbers them, each a function on
    the list of documents, and the pipeline that runs a list of stages from
    left to right. *)
Section Stages.
Variable lib : imports.
Variables selector options : value.

Definition stage := list value -> result (list value).

Definition stage_selector : stage := fun docs =>
  pred <- ext "compileDocumentSelector" (compileDocumentSelector lib selector) ;;
  Ok (filter pred docs).

Definition stage_near : stage := processNearOperator lib selector.

Definition stage_geoIntersects : stage := processGeoIntersectsOperator lib selector.

Definition option_of (name : string) : option value :=
  if truthy options && truthy (get options name) then Some (get options name)
  else None.

Definition stage_sort : stage := fun docs =>
  match option_of "sort" with
  | Some s => cmp <- ext "compileSort" (compileSort lib s) ;; Ok (js_sort cmp docs)
  | None => Ok docs
  end.

Definition stage_skip : stage := fun docs =>
  match option_of "skip" with
  | Some s => start <- toInteger_value s ;; Ok (slice_from start docs)
  | None => Ok docs
  end.

Definition stage_limit : stage := fun docs =>
  match option_of "limit" with
  | Some s => n <- toInteger_value s ;; Ok (take n docs)
  | None => Ok docs
  end.

Definition stage_fields : stage := fun docs =>
  match option_of "fields" with
  | Some f => filterFields docs f
  | None => Ok docs
  end.

Definition pipeline : list stage :=
  [ stage_selector; stage_near; stage_geoIntersects; stage_sort;
    stage_skip; stage_limit; stage_fields ].

Definition run (stages : list stage) (docs : list value) : result (list value) :=
  foldM (fun docs (st : stage) => st docs) stages docs.
End Stages.

(* ================================================================== *)
(** ** An instance of the imported functions *)

(** The code is evaluated on concrete documents with this instance.  The
    geometry functions are a stand-in for turf: positions are (longitude,
    latitude) pairs in degrees, the distance is the taxicab distance at
    111195 m for a degree, which is the distance of turf between two points
    of one meridian up to rounding, and a polygon is replaced by the bounding
    box of its outer ring. *)
Module Plane.

Definition position : Type := (Qc * Qc)%type.

Definition coords (v : value) : option position :=
  match v with
  | VArr [ VNum (Num x); VNum (Num y) ] => Some (x, y)
  | _ => None
  end.

Fixpoint positions (l : list value) : option (list position) :=
  match l with
  | [] => Some []
  | v :: r =>
      match coords v, positions r with
      | Some p, Some ps => Some (p :: ps)
      | _, _ => None
      end
  end.

Definition elems (v : value) : list value :=
  match v with VArr l => l | _ => [] end.

Definition Qcleb (x y : Qc) : bool := Qle_bool x y.
Definition Qcabs (x : Qc) : Qc := if Qcleb (Q2Qc 0) x then x else Qcopp x.
Definition Qcmin (x y : Qc) : Qc := if Qcleb x y then x else y.

Definition taxicab (p q : position) : Qc :=
  Qcplus (Qcabs (Qcminus (fst p) (fst q))) (Qcabs (Qcminus (snd p) (snd q))).

Definition metres_per_degree : Qc := Q2Qc (inject_Z 111195).

Definition metres (p q : position) : Qc := Qcmult metres_per_degree (taxicab p q).

Definition distance (from to : value) : option number :=
  match coords (get from "coordinates"), coords (get to "coordinates") with
  | Some p, Some q => Some (Num (metres p q))
  | _, _ => None
  end.

Definition nearestPointOnLine (line pt : value) : option nearest_point :=
  match positions (elems (get line "coordinates")), coords (get pt "coordinates") with
  | Some (v :: vs), Some p =>
      let d := fold_left (fun m q => Qcmin m (metres p q)) vs (metres p v) in
      Some {| dist := Num d; index := num_of_Z 0; location := num_of_Z 0 |}
  | _, _ => None
  end.

(** The box around the outer ring of a polygon's coordinates. *)
Definition inside (ring : list position) (p : position) : bool :=
  existsb (fun q => Qcleb (fst q) (fst p)) ring
  && existsb (fun q => Qcleb (fst p) (fst q)) ring
  && existsb (fun q => Qcleb (snd q) (snd p)) ring
  && existsb (fun q => Qcleb (snd p) (snd q)) ring.

Definition outer_ring (polygon_coordinates : value) : option (list position) :=
  positions (elems (hd VUndefined (elems polygon_coordinates))).

Definition booleanPointInPolygon (pt polygon : value) : option bool :=
  match coords (get pt "coordinates"), outer_ring (get polygon "coordinates") with
  | Some p, Some ring => Some (inside ring p)
  | _, _ => None
  end.

Definition rings_meet (a b : list position) : bool :=
  existsb (inside b) a || existsb (inside a) b.

Definition parts (g : value) : list value :=
  if strict_eq (get g "type") (VStr "MultiPolygon") then elems (get g "coordinates")
  else [ get g "coordinates" ].

Fixpoint any_part (ring : list position) (ps : list value) : option bool :=
  match ps with
  | [] => Some false
  | c :: r =>
      match outer_ring c, any_part ring r with
      | Some a, Some b => Some (rings_meet a ring || b)
      | _, _ => None
      end
  end.

Definition intersect (g polygon : value) : option value :=
  match outer_ring (get polygon "coordinates") with
  | Some ring =>
      match any_part ring (parts g) with
      | Some true => Some polygon
      | Some false => Some VNull
      | None => None
      end
  | None => None
  end.

Definition booleanWithin (line polygon : value) : option bool :=
  match positions (elems (get line "coordinates")), outer_ring (get polygon "coordinates") with
  | Some vs, Some ring => Some (forallb (inside ring) vs)
  | _, _ => None
  end.

Definition booleanCrosses (line polygon : value) : option bool :=
  match positions (elems (get line "coordinates")), outer_ring (get polygon "coordinates") with
  | Some vs, Some ring =>
      Some (existsb (inside ring) vs && negb (forallb (inside ring) vs))
  | _, _ => None
  end.

(** Modelled from the spec: [compileDocumentSelector] is defined in
    [./selector], which is not among the sources.  The fragment modelled: a
    field whose condition carries [$near] or [$geoIntersects] matches every
    document, these operators being left to the query processor; any other
    field is an implicit equality with a scalar. *)
Definition compileDocumentSelector (selector : value) : option (value -> bool) :=
  Some (fun d =>
          forallb (fun kv =>
                     if truthy (get (snd kv) "$near")
                        || truthy (get (snd kv) "$geoIntersects")
                     then true
                     else strict_eq (get d (fst kv)) (snd kv))
                  (entries selector)).

Definition rank (v : value) : Z :=
  match v with
  | VUndefined | VNull => 0
  | VNum _ => 1
  | VStr _ => 2
  | _ => 3
  end.

Definition compare_values (a b : value) : Z :=
  match a, b with
  | VNum x, VNum y => if num_ltb x y then (-1) else if num_ltb y x then 1 else 0
  | VStr x, VStr y =>
      match String.compare x y with Lt => (-1) | Eq => 0 | Gt => 1 end
  | _, _ => Z.sgn (rank a - rank b)
  end%Z.

(** One entry of a sort specification: a field name, ascending, or a pair
    of a field name and ["asc"] or ["desc"]. *)
Definition sort_key (entry : value) : string * Z :=
  match entry with
  | VStr f => (f, 1%Z)
  | VArr [ VStr f; VStr dir ] => (f, if String.eqb dir "desc" then (-1)%Z else 1%Z)
  | _ => (EmptyString, 0%Z)
  end.

Fixpoint compare_by (ks : list (string * Z)) (a b : value) : Z :=
  match ks with
  | [] => 0
  | (f, dir) :: r =>
      let c := (dir * compare_values (get a f) (get b f))%Z in
      if (c =? 0)%Z then compare_by r a b else c
  end.

(** Modelled from the spec: [compileSort] is defined in [./selector], which
    is not among the sources.  A sort specification is a sequence of
    (field, direction) entries; [undefined] and [null] sort lowest, then
    numbers, then strings; several keys compare lexicographically. *)
Definition compileSort (sort : value) : option (value -> value -> number) :=
  Some (fun a b => num_of_Z (compare_by (map sort_key (elems sort)) a b)).

Definition lib : imports :=
  Build_imports compileDocumentSelector compileSort distance nearestPointOnLine
                booleanPointInPolygon intersect booleanCrosses booleanWithin.

(** Documents and selectors. *)
Definition num (z : Z) : value := VNum (num_of_Z z).

Definition deg (q : Q) : value := VNum (Num (Q2Qc q)).

Definition point (x y : Q) : value :=
  VObj [ ("type", VStr "Point"); ("coordinates", VArr [ deg x; deg y ]) ].


Definition box (x0 y0 x1 y1 : Q) : value :=
  VArr [ VArr [ VArr [ deg x0; deg y0 ]; VArr [ deg x1; deg y0 ];
                VArr [ deg x1; deg y1 ]; VArr [ deg x0; deg y1 ];
                VArr [ deg x0; deg y0 ] ] ].

Definition polygon (x0 y0 x1 y1 : Q) : value :=
  VObj [ ("type", VStr "Polygon"); ("coordinates", box x0 y0 x1 y1) ].

Definition place (id : string) (age : Z) (loc : value) : value :=
  VObj [ ("_id", VStr id); ("age", num age); ("loc", loc) ].

Definition near (geometry : value) (more : list (string * value)) : value :=
  VObj [ ("loc", VObj [ ("$near", VObj (("$geometry", geometry) :: more)) ]) ].

Definition geoIntersects (geometry : value) : value :=
  VObj [ ("loc", VObj [ ("$geoIntersects", VObj [ ("$geometry", geometry) ]) ]) ].

End Plane.

(* ================================================================== *)
(** ** The predicates of the statements *)

Definition is_hex (c : ascii) : bool :=
  existsb (Ascii.eqb c) (list_ascii_of_string hex_alphabet).

(** [s] is [pattern] with a hexadecimal digit for every [x], one of [8],
    [9], [a], [b] for every [y], and the other characters kept. *)
Fixpoint uid_matches (pattern s : string) : Prop :=
  match pattern, s with
  | EmptyString, EmptyString => True
  | String p pattern', String c s' =>
      (if Ascii.eqb p "x" then is_hex c = true
       else if Ascii.eqb p "y" then In c [ "8"; "9"; "a"; "b" ]%char
            else c = p)
      /\ uid_matches pattern' s'
  | _, _ => False
  end.

Definition uid_shape (s : string) : Prop :=
  String.length s = 32
  /\ (forall i c, String.get i s = Some c -> is_hex c = true)
  /\ String.get 12 s = Some "4"%char
  /\ (exists c, String.get 16 s = Some c /\ In c [ "8"; "9"; "a"; "b" ]%char).

(** The documents an upsert is called with. *)
Definition upsert_docs (docs : value) : list value :=
  match docs with
  | VArr l => l
  | _ => [ docs ]
  end.

Definition is_object (v : value) : Prop :=
  match v with VObj _ => True | _ => False end.

(** The bases an upsert pairs with its documents: the array of bases, or
    the single base of a single document. *)
Definition bases_list (docs : value) (bases : arg) : list value :=
  let b := match bases with Fn _ => VUndefined | Val v => v end in
  match docs with
  | VArr _ => match b with VArr l => l | _ => [] end
  | _ => [ b ]
  end.


(** With an array of documents the bases are an array too, or omitted. *)
Definition bases_fit (docs : value) (bases : arg) : Prop :=
  match docs, bases with
  | VArr _, Val b => truthy b = false \/ isArray b = true
  | _, _ => True
  end.


(** The relation between an item as the upsert pairs it and as it is
    returned: the base is kept; a document with an id is kept; a document
    without one has received an id made by [createUid]; and the base, if
    there is one, has an id, which is [===] to the id of the document. *)
Definition settled (random : nat -> Qc) (it o : upsert_item) : Prop :=
  base o = base it
  /\ (truthy (get (doc it) "_id") = true -> doc o = doc it)
  /\ (truthy (get (doc it) "_id") = false ->
      exists k, set_prop (doc it) "_id" (VStr (fst (createUid random k))) = Ok (doc o))
  /\ (truthy (base o) = false
      \/ (truthy (get (base o) "_id") = true
          /\ strict_eq (get (base o) "_id") (get (doc o) "_id") = true)).

(** Sample inputs. *)
Module Sample.
Import Plane.

(** A source of random numbers that always draws one half. *)
Definition half (n : nat) : Qc := Q2Qc (1 # 2).

Definition newDoc : value := VObj [ ("x", num 1) ].
Definition docA : value := VObj [ ("_id", VStr "a"); ("x", num 1) ].
End Sample.

(** [val != null && val[op]] *)
Definition carries (op : string) (val : value) : bool :=
  negb (nullish val) && truthy (get val op).

(** The test of the first filter of the [$near] stage, on a document that is
    not [undefined] or [null]. *)
Definition point_or_line (key : string) (d : value) : bool :=
  truthy (get d key)
  && (strict_eq (get (get d key) "type") (VStr "Point")
      || strict_eq (get (get d key) "type") (VStr "LineString")).

(** [$maxDistance] is left out, or is a number other than [0] and [NaN]. *)
Definition max_distance_fits (near : value) : Prop :=
  get near "$maxDistance" = VUndefined
  \/ exists m, get near "$maxDistance" = VNum m /\ truthy (VNum m) = true.

(** A distance passes the ceiling of [$maxDistance]. *)
Definition within_max (near : value) (x : number) : bool :=
  match get near "$maxDistance" with
  | VNum m => if truthy (VNum m) then num_leb x m else true
  | _ => true
  end.

(** What the [$near] stage keeps, [distance_of] giving the distance of a
    document from the query point. *)
Definition near_keeps (key : string) (near : value) (distance_of : value -> number)
           (d : value) : bool :=
  point_or_line key d
  && num_geb (distance_of d) (num_of_Z 0)
  && within_max near (distance_of d).

Definition closer (distance_of : value -> number) (a b : value) : Prop :=
  num_leb (distance_of a) (distance_of b) = true.

(** A result that is not the error of [getDistance]. *)
Definition supported {A : Type} (r : result A) : Prop := r <> Err UnsupportedType.

Module Places.
Import Plane.

(** The query point and three places: at the query point, 100 m to the
    north of it and 2000 m to the north of it. *)
Definition origin : value := point 0 0.
Definition here : value := place "here" 40 (point 0 0).
Definition close : value := place "close" 30 (point 0 (9 # 10000)).
Definition far : value := place "far" 20 (point 0 (18 # 1000)).

Definition nearOrigin : value := near origin [].
Definition nearOriginWithin (m : Z) : value := near origin [ ("$maxDistance", num m) ].

(** The distance of a place from the query point, by [getDistance]. *)
Definition from_origin (d : value) : number :=
  match getDistance lib origin (get d "loc") with
  | Ok x => x
  | Err _ => NaN
  end.
End Places.


Module Queries.
Import Plane.


End Queries.




Definition has_type (geometry : value) (type : string) : Prop :=
  get geometry "type" = VStr type.

Module Shapes.
Import Plane.

Definition square : value := polygon 0 0 10 10.

(** Two lines, the first without coordinates, the second inside the square. *)
Definition twoLines : value :=
  VObj [ ("type", VStr "MultiLineString");
         ("coordinates", VArr [ VArr []; VArr [ VArr [ deg 1; deg 1 ];
                                                VArr [ deg 2; deg 2 ] ] ]) ].


End Shapes.


(* ------------------------------------------------------------------ *)
(** Dotted paths, in the words of the specification. *)

(** The value at a path: [undefined] when the path is missing. *)
Definition lookup (path : list string) (v : value) : value := fold_left get path v.

(** [path] continues [prefix]. *)
Definition continues (prefix path : list string) : Prop :=
  exists rest, path = prefix ++ rest.

(** Two paths on one branch: one continues the other. *)
Definition on_branch (p q : list string) : Prop := continues p q \/ continues q p.

(** The path exists in [v]: it leads to a value other than [undefined] and
    [null]. *)
Definition exists_in (path : list string) (v : value) : Prop :=
  nullish (lookup path v) = false.

(** Every value that [path] passes through in [v], [v] included and the end
    of the path excluded, is an object, until the path is missing. *)
Fixpoint through_objects (path : list string) (v : value) : Prop :=
  match path with
  | [] => True
  | k :: rest =>
      match v with
      | VObj _ =>
          match rest with
          | [] => True
          | _ => nullish (get v k) = true \/ through_objects rest (get v k)
          end
      | _ => False
      end
  end.

(** [o] with its property [k] set to [x], and with its property [k] removed. *)
Definition set_key (o : value) (k : string) (x : value) : value :=
  match o with
  | VObj ps => VObj (replace_assoc k x ps)
  | _ => o
  end.

Definition delete_key (o : value) (k : string) : value :=
  match o with
  | VObj ps => VObj (remove_assoc k ps)
  | _ => o
  end.

(** [to] with [x] copied at [path], the objects on the way created when
    they are missing. *)
Fixpoint assign (path : list string) (x : value) (to : value) : value :=
  match path with
  | [] => to
  | k :: rest =>
      match rest with
      | [] => set_key to k x
      | _ => set_key to k (assign rest x (if truthy (get to k) then get to k else VObj []))
      end
  end.

(** [o] with [path] deleted. *)
Fixpoint remove (path : list string) (o : value) : value :=
  match path with
  | [] => o
  | k :: rest =>
      match rest with
      | [] => delete_key o k
      | _ => match get o k with
             | VObj _ => put_back o k (remove rest (get o k))
             | _ => o
             end
      end
  end.

(** The listed paths of a projection. *)
Definition listed (fields : value) : list (list string) := map split_dot (keys fields).

(** A value that [JSON.stringify] writes as it is: no [undefined] and no
    [NaN] in it. *)
Fixpoint json_clean (v : value) : Prop :=
  match v with
  | VUndefined => False
  | VNum NaN => False
  | VArr l => (fix all (l : list value) : Prop :=
                 match l with
                 | [] => True
                 | x :: r => json_clean x /\ all r
                 end) l
  | VObj ps => (fix all (ps : list (string * value)) : Prop :=
                  match ps with
                  | [] => True
                  | kv :: r => json_clean (snd kv) /\ all r
                  end) ps
  | _ => True
  end.

(** [n] is made of parts of [item]: at every path [n] has nothing, or what
    [item] has, or an object where [item] has an object. *)
Definition agrees (n item : value) : Prop :=
  forall q, lookup q n = VUndefined
            \/ lookup q n = lookup q item
            \/ (is_object (lookup q n) /\ is_object (lookup q item)).

(** The paths of [done] that exist in [item] are in [n] as they are in
    [item], and [n] has nothing off the branches of these paths. *)
Definition has_paths (item n : value) (done : list (list string)) : Prop :=
  forall p, In p done -> exists_in p item -> lookup p n = lookup p item.

Definition only_paths (item n : value) (done : list (list string)) : Prop :=
  forall q, lookup q n <> VUndefined ->
            q = [] \/ exists p, In p done /\ exists_in p item /\ on_branch p q.

(** The paths of [done], and what is below them, are not in [n]; off the
    branches of these paths [n] has what [c] has. *)
Definition gone_paths (n : value) (done : list (list string)) : Prop :=
  forall p, In p done -> forall r, lookup (p ++ r) n = VUndefined.

Definition kept_paths (c n : value) (done : list (list string)) : Prop :=
  forall q, (forall p, In p done -> ~ on_branch p q) -> lookup q n = lookup q c.

Module Projections.
Import Plane.

Definition typeOnly : value := VObj [ ("loc.type", num 1) ].
Definition notAge : value := VObj [ ("age", num 0) ].
Definition ageTrue : value := VObj [ ("age", VBool true) ].
Definition deep : value := VObj [ ("a.b.c", num 1) ].
Definition shallow : value := VObj [ ("a", num 0) ].
End Projections.

(* ================================================================== *)
(** ** [cloneLocalCollection] *)

(** The arguments with which the clone of a collection hands the pending
    upserts of the source collection to [upsert] of the target collection:
    [upserts.map((item) => item.doc), upserts.map((item) => item.base)]. *)
Definition upsert_args (upserts : list upsert_item) : value * value :=
  (VArr (map doc upserts), VArr (map base upserts)).

(* ================================================================== *)
(** ** More predicates of the statements *)

(** [out] is taken from [l]: its elements are elements of [l], none more
    often than in [l]. *)
Definition taken_from {A : Type} (out l : list A) : Prop :=
  exists rest, Permutation (out ++ rest) l.

(** The test [f] returns [true] on [x], without throwing. *)
Definition passes {A : Type} (f : A -> result bool) (x : A) : bool :=
  match f x with
  | Ok true => true
  | _ => false
  end.

(** The documents at the distance [x]. *)
Definition at_distance (distance_of : value -> number) (x : number) (d : value) : bool :=
  num_eqb (distance_of d) x.

(** An upsert item as a collection holds it: the document is an object
    with an id, and the base, if there is one, has the same id. *)
Definition well_paired (it : upsert_item) : Prop :=
  is_object (doc it)
  /\ truthy (get (doc it) "_id") = true
  /\ (truthy (base it) = false
      \/ (truthy (get (base it) "_id") = true
          /\ strict_eq (get (base it) "_id") (get (doc it) "_id") = true)).

(** No bases are given: the argument is the success callback, or is left
    out, or is falsy. *)
Definition no_bases (bases : arg) : Prop :=
  match bases with
  | Fn _ => True
  | Val b => truthy b = false
  end.

(** The geometry types that the [$geoIntersects] stage tests. *)
Definition tested_types : list string :=
  [ "Point"; "Polygon"; "MultiPolygon"; "LineString"; "MultiLineString" ].

(** A document that the [$geoIntersects] stage does not test: its field is
    falsy, or holds a geometry of none of the tested types. *)
Definition untested (key : string) (d : value) : Prop :=
  nullish d = false
  /\ (truthy (get d key) = false
      \/ Forall (fun t => strict_eq (get (get d key) "type") (VStr t) = false)
                tested_types).

(** None of the four options is set. *)
Definition no_options (options : value) : Prop :=
  truthy options = false
  \/ (truthy (get options "sort") = false
      /\ truthy (get options "skip") = false
      /\ truthy (get options "limit") = false
      /\ truthy (get options "fields") = false).

Module Ties.
Import Plane.

(** Two places 100 m from the query point of [Places], and a place whose
    position cannot be read. *)
Definition north : value := place "north" 1 (point 0 (9 # 10000)).
Definition east : value := place "east" 2 (point (9 # 10000) 0).
Definition nowhere : value :=
  place "nowhere" 3 (VObj [ ("type", VStr "Point"); ("coordinates", VStr "?") ]).
End Ties.

Module Found.
Import Plane.

(** A document without a place, one with a geometry of a type that the
    stages do not know, and one with two lines. *)
Definition noPlace : value := VObj [ ("_id", VStr "none"); ("age", num 50) ].
Definition circle : value := place "circle" 60 (VObj [ ("type", VStr "Circle") ]).
Definition lines : value := place "lines" 70 Shapes.twoLines.
End Found.

Module Asked.
Import Plane.

(** The second page of one document by age, with the age alone; options
    whose limit and skip are 0; and a selector of an age. *)
Definition page : value :=
  VObj [ ("sort", VArr [ VStr "age" ]); ("skip", num 1); ("limit", num 1);
         ("fields", VObj [ ("age", num 1) ]) ].
Definition unlimited : value := VObj [ ("limit", num 0); ("skip", num 0) ].
Definition aged (age : Z) : value := VObj [ ("age", num age) ].
End Asked.

Module Broken.

(** Imported functions that throw whenever they are called. *)
Definition lib : imports :=
  Build_imports (fun _ => None) (fun _ => None) (fun _ _ => None) (fun _ _ => None)
                (fun _ _ => None) (fun _ _ => None) (fun _ _ => None) (fun _ _ => None).
End Broken.

Module Pending.
Import Plane.

(** Two pending upserts: one with a base, one without. *)
Definition changed : upsert_item :=
  {| doc := VObj [ ("_id", VStr "a"); ("x", num 2) ];
     base := VObj [ ("_id", VStr "a"); ("x", num 1) ] |}.

Definition created : upsert_item :=
  {| doc := VObj [ ("_id", VStr "b"); ("x", num 3) ]; base := VNull |}.
End Pending.

(* ================================================================== *)
(** * Properties *)

(** ** The monad *)

Lemma bind_ok {A B} (r : result A) (k : A -> result B) (b : B) :
  bind r k = Ok b <-> exists a, r = Ok a /\ k a = Ok b.
Proof.
  destruct r as [a|e]; simpl; split.
  - intros H; exists a; auto.
  - intros [a' [E H]]; inversion E; subst; exact H.
  - discriminate.
  - intros [a' [E _]]; discriminate.
Qed.

Lemma bind_err {A B} (r : result A) (k : A -> result B) (e : error) :
  bind r k = Err e <-> r = Err e \/ exists a, r = Ok a /\ k a = Err e.
Proof.
  destruct r as [a|e']; simpl; split.
  - intros H; right; exists a; auto.
  - intros [H|[a' [E H]]]; [discriminate | inversion E; subst; exact H].
  - intros H; left; inversion H; reflexivity.
  - intros [H|[a' [E _]]]; [inversion H; reflexivity | discriminate].
Qed.

(** ** [createUid] *)

Section UidFacts.
Variable random : nat -> Qc.
Hypothesis random_range : forall n, (0 <= random n)%Qc /\ (random n < 1)%Qc.

Lemma draw_range (n : nat) :
  (0 <= to_int32 (num_mul (Num (random n)) (num_of_Z 16)) < 16)%Z.
Proof.
  destruct (random_range n) as [H0 H1].
  unfold num_mul, num_of_Z, to_int32, Qtrunc.
  set (q := Qcmult (random n) (Q2Qc (inject_Z 16))).
  assert (Eq : (this q == random n * inject_Z 16)%Q).
  { unfold q, Qcmult, Q2Qc; cbn [this].
    etransitivity; [apply Qred_correct |].
    apply Qmult_comp; [reflexivity | apply Qred_correct]. }
  assert (Hlo : (0 <= this q)%Q).
  { rewrite Eq. apply Qmult_le_0_compat; [exact H0 | discriminate]. }
  assert (Hhi : (this q < inject_Z 16)%Q).
  { rewrite Eq. rewrite <- (Qmult_1_l (inject_Z 16)) at 2.
    apply Qmult_lt_compat_r; [reflexivity | exact H1]. }
  assert (Hb : Qle_bool 0 (this q) = true) by (apply Qle_bool_iff; exact Hlo).
  rewrite Hb.
  assert (F0 : (0 <= Qfloor (this q))%Z).
  { rewrite <- (Qfloor_Z 0). apply Qfloor_resp_le. exact Hlo. }
  assert (F1 : (Qfloor (this q) < 16)%Z).
  { rewrite Zlt_Qlt. eapply Qle_lt_trans; [apply Qfloor_le | exact Hhi]. }
  rewrite Z.mod_small by lia.
  destruct (Qfloor (this q) <? 2147483648)%Z eqn:E; [lia | apply Z.ltb_ge in E; lia].
Qed.

Ltac each_draw r H :=
  assert (r = 0 \/ r = 1 \/ r = 2 \/ r = 3 \/ r = 4 \/ r = 5 \/ r = 6 \/ r = 7
          \/ r = 8 \/ r = 9 \/ r = 10 \/ r = 11 \/ r = 12 \/ r = 13 \/ r = 14
          \/ r = 15)%Z as H by lia;
  repeat (destruct H as [H | H]); rewrite H.

Lemma uid_char_x (n : nat) :
  exists c, uid_char random "x" n = String c EmptyString /\ is_hex c = true.
Proof.
  unfold uid_char. pose proof (draw_range n) as R.
  set (r := to_int32 _) in *. change (Ascii.eqb "x" "x") with true. cbv iota.
  each_draw r H; eexists; split; reflexivity.
Qed.

Lemma uid_char_y (n : nat) :
  exists c, uid_char random "y" n = String c EmptyString
            /\ In c [ "8"; "9"; "a"; "b" ]%char.
Proof.
  unfold uid_char. pose proof (draw_range n) as R.
  set (r := to_int32 _) in *. change (Ascii.eqb "y" "x") with false. cbv iota.
  each_draw r H; eexists; (split; [reflexivity | simpl; tauto]).
Qed.

Lemma uid_matches_cons (p c : ascii) (pattern s : string) :
  uid_matches (String p pattern) (String c s)
  = ((if Ascii.eqb p "x" then is_hex c = true
      else if Ascii.eqb p "y" then In c [ "8"; "9"; "a"; "b" ]%char
           else c = p)
     /\ uid_matches pattern s).
Proof. reflexivity. Qed.

Lemma replace_xy_matches (pattern : string) :
  forall n, uid_matches pattern (fst (replace_xy random pattern n)).
Proof.
  induction pattern as [| p rest IH]; intros n; [exact I |].
  cbn [replace_xy].
  destruct (Ascii.eqb p "x") eqn:Ex; [| destruct (Ascii.eqb p "y") eqn:Ey];
    cbn [orb].
  - pose proof Ex as Ex'. apply Ascii.eqb_eq in Ex'. subst p.
    destruct (uid_char_x n) as [c [E Hc]]. rewrite E.
    specialize (IH (S n)). destruct (replace_xy random rest (S n)) as [s n'].
    cbn [fst String.append] in *. rewrite uid_matches_cons, Ex. auto.
  - pose proof Ey as Ey'. apply Ascii.eqb_eq in Ey'. subst p.
    destruct (uid_char_y n) as [c [E Hc]]. rewrite E.
    specialize (IH (S n)). destruct (replace_xy random rest (S n)) as [s n'].
    cbn [fst String.append] in *. rewrite uid_matches_cons, Ex, Ey. auto.
  - specialize (IH n). destruct (replace_xy random rest n) as [s n'].
    cbn [fst] in *. rewrite uid_matches_cons, Ex, Ey. auto.
Qed.

Lemma createUid_matches (n : nat) :
  uid_matches uid_pattern (fst (createUid random n)).
Proof. apply replace_xy_matches. Qed.
End UidFacts.

Lemma uid_matches_shape (s : string) : uid_matches uid_pattern s -> uid_shape s.
Proof.
  unfold uid_pattern. intros H.
  do 32 (destruct s as [| ? s]; [simpl in H; tauto |];
         let Hc := fresh "Hc" in
         destruct H as [Hc H]; cbv [Ascii.eqb Bool.eqb andb] in Hc).
  destruct s; [| simpl in H; tauto].
  subst.
  match goal with
  | Hy : In ?c _ |- _ =>
      assert (is_hex c = true)
        by (destruct Hy as [<- | [<- | [<- | [<- | []]]]]; reflexivity)
  end.
  unfold uid_shape. split; [reflexivity |]. split; [| split].
  - intros i c.
    do 32 (destruct i as [| i];
           [cbn [String.get]; intros E; inversion E; subst;
            solve [assumption | reflexivity] |]).
    cbn. discriminate.
  - reflexivity.
  - eexists; split; [reflexivity | assumption].
Qed.

(** ** Numbers and values *)

Lemma Qle_bool_inject (a b : Z) :
  Qle_bool (Q2Qc (inject_Z a)) (Q2Qc (inject_Z b)) = (a <=? b)%Z.
Proof.
  apply eq_true_iff_eq. rewrite Qle_bool_iff, Z.leb_le.
  unfold Q2Qc; cbn [this]. rewrite !Qred_correct. rewrite <- Zle_Qle. reflexivity.
Qed.

Lemma num_ltb_nat (i n : nat) :
  num_ltb (num_of_nat i) (num_of_nat n) = Nat.ltb i n.
Proof.
  unfold num_ltb, num_of_nat, num_of_Z. rewrite Qle_bool_inject.
  destruct (Nat.ltb i n) eqn:E.
  - apply Nat.ltb_lt in E. apply negb_true_iff, Z.leb_gt. lia.
  - apply Nat.ltb_ge in E. apply negb_false_iff, Z.leb_le. lia.
Qed.

Lemma num_eqb_eq (a b : number) : num_eqb a b = true -> a = b.
Proof.
  destruct a as [| x], b as [| y]; simpl; try discriminate.
  intros H. f_equal. apply Qc_is_canon, Qeq_bool_iff, H.
Qed.

Lemma strict_eq_eq (a b : value) : strict_eq a b = true -> a = b.
Proof.
  destruct a, b; simpl; try discriminate; intros H; try reflexivity.
  - apply Bool.eqb_prop in H. congruence.
  - apply num_eqb_eq in H. congruence.
  - apply String.eqb_eq in H. congruence.
Qed.

Lemma assoc_replace_same (k : string) (x : value) (ps : list (string * value)) :
  assoc k (replace_assoc k x ps) = Some x.
Proof.
  induction ps as [| [k' v] r IH]; simpl.
  - rewrite String.eqb_refl. reflexivity.
  - destruct (String.eqb k k') eqn:E; simpl.
    + rewrite String.eqb_refl. reflexivity.
    + rewrite E. exact IH.
Qed.

Lemma get_set_object (o o' : value) (x : value) :
  set_prop o "_id" x = Ok o' -> get o' "_id" = x.
Proof.
  destruct o as [| | | | | l | ps]; simpl; try discriminate.
  - intros H; inversion H; subst. simpl. rewrite assoc_replace_same. reflexivity.
Qed.

(** ** [regularizeUpsert] *)

Lemma base_at_array (l : list value) (i : nat) :
  base_at (VArr l) i = Ok (nth i l VUndefined).
Proof.
  unfold base_at. cbn [get String.eqb Ascii.eqb Bool.eqb to_number bind].
  change (String.eqb "length" "length") with true. cbn [to_number bind].
  rewrite num_ltb_nat. cbn [get_index].
  destruct (Nat.ltb i (List.length l)) eqn:E; [reflexivity |].
  apply Nat.ltb_ge in E. rewrite nth_overflow by exact E. reflexivity.
Qed.

Lemma make_items_array (l : list value) (docs : list value) :
  forall i, exists items,
    make_items docs (VArr l) i = Ok items
    /\ map doc items = docs
    /\ forall j it, nth_error items j = Some it -> base it = nth (i + j) l VUndefined.
Proof.
  induction docs as [| d r IH]; intros i.
  - exists []. repeat split; auto. intros [| j] it; discriminate.
  - destruct (IH (S i)) as [items [E [Hd Hb]]].
    exists ({| doc := d; base := nth i l VUndefined |} :: items).
    cbn [make_items]. rewrite base_at_array. cbn [bind]. rewrite E. cbn [bind].
    repeat split.
    + cbn. rewrite Hd. reflexivity.
    + intros [| j] it H; cbn in H.
      * inversion H; subst. cbn. rewrite Nat.add_0_r. reflexivity.
      * rewrite (Hb j it H). f_equal. lia.
Qed.

Section UpsertFacts.
Variable random : nat -> Qc.

(** What one round of the loop returns. *)
Lemma check_item_ok (it o : upsert_item) (n n' : nat) :
  check_item random it n = Ok (o, n') ->
  base o = base it
  /\ (truthy (get (doc it) "_id") = true -> doc o = doc it)
  /\ (truthy (get (doc it) "_id") = false ->
      set_prop (doc it) "_id" (VStr (fst (createUid random n))) = Ok (doc o))
  /\ (truthy (base o) = false
      \/ (truthy (get (base o) "_id") = true
          /\ strict_eq (get (base o) "_id") (get (doc o) "_id") = true)).
Proof.
  unfold check_item, get_prop.
  destruct (nullish (doc it)); [discriminate |]. cbn [bind].
  destruct (truthy (get (doc it) "_id")) eqn:Eid.
  - cbn [bind].
    destruct (truthy (base it)) eqn:Eb; cbn [andb].
    + destruct (truthy (get (base it) "_id")) eqn:Ebi; cbn [negb]; [| discriminate].
      destruct (strict_eq (get (base it) "_id") (get (doc it) "_id")) eqn:Es;
        cbn [negb]; [| discriminate].
      intros H; inversion H; subst; cbn [doc base].
      repeat split; auto; try discriminate.
    + intros H; inversion H; subst; cbn [doc base].
      repeat split; auto; discriminate.
  - destruct (createUid random n) as [uid m] eqn:Eu. cbn [fst].
    destruct (set_prop (doc it) "_id" (VStr uid)) as [d |] eqn:Eset;
      cbn [bind]; [| discriminate].
    destruct (truthy (base it)) eqn:Eb; cbn [andb].
    + destruct (truthy (get (base it) "_id")) eqn:Ebi; cbn [negb]; [| discriminate].
      destruct (strict_eq (get (base it) "_id") (get d "_id")) eqn:Es;
        cbn [negb]; [| discriminate].
      intros H; inversion H; subst; cbn [doc base].
      repeat split; auto; try discriminate.
    + intros H; inversion H; subst; cbn [doc base].
      repeat split; auto; discriminate.
Qed.


Lemma check_items_ok (items : list upsert_item) :
  forall n out n', check_items random items n = Ok (out, n') ->
                   Forall2 (settled random) items out.
Proof.
  induction items as [| it r IH]; intros n out n' H; cbn [check_items] in H.
  - inversion H; subst. constructor.
  - apply bind_ok in H. destruct H as [[o m] [E1 H]].
    apply bind_ok in H. destruct H as [[os m'] [E2 H]].
    inversion H; subst. cbn [fst snd] in *. constructor.
    + destruct (check_item_ok _ _ _ _ E1) as [A [B [C D]]].
      repeat split; auto. intros F. exists n. auto.
    + eapply IH. exact E2.
Qed.


Lemma make_items_docs (docs : list value) (b : value) :
  forall i items, make_items docs b i = Ok items -> map doc items = docs.
Proof.
  induction docs as [| d r IH]; intros i items H; cbn [make_items] in H.
  - inversion H. reflexivity.
  - apply bind_ok in H. destruct H as [x [_ H]].
    apply bind_ok in H. destruct H as [rest [E H]].
    inversion H; subst. cbn. f_equal. eapply IH. exact E.
Qed.

(** The function is the pairing followed by the loop. *)
Lemma regularizeUpsert_steps (docs : value) (bases success error : arg) (n : nat) :
  exists b,
    regularizeUpsert random docs bases success error n
    = (items <- make_items (upsert_docs docs) b 0 ;;
       r <- check_items random items n ;;
       Ok (fst r,
           (if isFunction bases then bases else success),
           (if isFunction bases then success else error), snd r))
    /\ (bases_fit docs bases -> b = VArr (bases_list docs bases)).
Proof.
  unfold regularizeUpsert, bases_fit, bases_list.
  destruct bases as [f | b]; cbn [isFunction].
  - destruct docs; eexists; (split; [reflexivity | intros _; reflexivity]).
  - destruct docs; try (eexists; split; [reflexivity | intros _; reflexivity]).
    eexists; split; [reflexivity |]. cbn [upsert_docs].
    intros [F | A].
    + rewrite F. destruct b; try reflexivity; discriminate.
    + destruct b; try discriminate. reflexivity.
Qed.

Lemma regularizeUpsert_ok (docs : value) (bases success error : arg) (n : nat)
      items s e n' :
  regularizeUpsert random docs bases success error n = Ok (items, s, e, n') ->
  exists paired b,
    make_items (upsert_docs docs) b 0 = Ok paired
    /\ (bases_fit docs bases -> b = VArr (bases_list docs bases))
    /\ Forall2 (settled random) paired items.
Proof.
  destruct (regularizeUpsert_steps docs bases success error n) as [b [E Hb]].
  rewrite E. intros H.
  apply bind_ok in H. destruct H as [paired [E1 H]].
  apply bind_ok in H. destruct H as [[out m] [E2 H]].
  inversion H; subst. exists paired, b. repeat split; auto.
  eapply check_items_ok. exact E2.
Qed.
End UpsertFacts.

Lemma Forall2_nth_error {A B} (R : A -> B -> Prop) (l : list A) (l' : list B) :
  Forall2 R l l' ->
  forall i a, nth_error l i = Some a -> exists b, nth_error l' i = Some b /\ R a b.
Proof.
  induction 1 as [| x y r r' Hxy _ IH]; intros [| i] a H; cbn in *; try discriminate.
  - inversion H; subst. eauto.
  - eauto.
Qed.


Section UpsertClaims.
Variable random : nat -> Qc.



Hypothesis random_range : forall n, (0 <= random n)%Qc /\ (random n < 1)%Qc.

(** C10. Every id that [createUid] makes, and so every id the upsert
    normalization gives to a document that has none, is a string of 32
    lowercase hexadecimal digits whose character at index 12 is [4] and
    whose character at index 16 is [8], [9], [a] or [b], whatever numbers
    in [0, 1) are drawn. *)
Theorem generated_id_shape :
  (forall n, uid_shape (fst (createUid random n)))
  /\ (forall docs bases success error n items s e n',
        regularizeUpsert random docs bases success error n = Ok (items, s, e, n') ->
        forall i d,
          nth_error (upsert_docs docs) i = Some d ->
          truthy (get d "_id") = false ->
          exists it uid,
            nth_error items i = Some it
            /\ get (doc it) "_id" = VStr uid
            /\ uid_shape uid).
Proof.
  assert (Shape : forall n, uid_shape (fst (createUid random n))).
  { intros n. apply uid_matches_shape, createUid_matches, random_range. }
  split; [exact Shape |].
  intros docs bases success error n items s e n' H i d Hi Hd.
  destruct (regularizeUpsert_ok random _ _ _ _ _ _ _ _ _ H) as [paired [b [Ep [_ F]]]].
  pose proof (make_items_docs _ _ _ _ Ep) as Hdocs.
  rewrite <- Hdocs, nth_error_map in Hi.
  destruct (nth_error paired i) as [it |] eqn:Ei; [| discriminate].
  cbn in Hi. inversion Hi; subst d.
  destruct (Forall2_nth_error _ _ _ F i it Ei) as [o [Eo [_ [_ [C _]]]]].
  destruct (C Hd) as [k Ek].
  exists o, (fst (createUid random k)).
  split; [exact Eo |]. split; [eapply get_set_object; exact Ek | apply Shape].
Qed.
End UpsertClaims.

Lemma half_range : forall n, (0 <= Sample.half n)%Qc /\ (Sample.half n < 1)%Qc.
Proof. intros n. split; [discriminate | reflexivity]. Defined.


Lemma generated_id_shape_witness :
  exists it uid,
    nth_error [ {| doc := VObj [ ("x", Plane.num 1);
                                ("_id", VStr "88888888888848888888888888888888") ];
                   base := VUndefined |} ] 0 = Some it
    /\ get (doc it) "_id" = VStr uid
    /\ uid_shape uid.
Proof.
  refine (proj2 (generated_id_shape Sample.half half_range)
                Sample.newDoc (Fn "success") (Fn "error") (Val VUndefined) 0
                _ (Fn "success") (Fn "error") 31 _ 0 Sample.newDoc _ _);
    reflexivity.
Defined.

(** ** Lists, callbacks that may throw, sorting *)

Lemma filterM_pure {A} (f : A -> result bool) (g : A -> bool) (l : list A) :
  (forall x, In x l -> f x = Ok (g x)) -> filterM f l = Ok (filter g l).
Proof.
  induction l as [| x r IH]; intros H; cbn [filterM filter]; [reflexivity |].
  rewrite (H x (or_introl eq_refl)). cbn [bind].
  rewrite IH by (intros y Hy; apply H; right; exact Hy). cbn [bind].
  destruct (g x); reflexivity.
Qed.

Lemma mapM_pure {A B} (f : A -> result B) (g : A -> B) (l : list A) :
  (forall x, In x l -> f x = Ok (g x)) -> mapM f l = Ok (map g l).
Proof.
  induction l as [| x r IH]; intros H; cbn [mapM map]; [reflexivity |].
  rewrite (H x (or_introl eq_refl)). cbn [bind].
  rewrite IH by (intros y Hy; apply H; right; exact Hy). reflexivity.
Qed.

Lemma filterM_ok {A} (f : A -> result bool) (l l' : list A) :
  filterM f l = Ok l' -> forall x, In x l' -> In x l /\ f x = Ok true.
Proof.
  revert l'. induction l as [| y r IH]; intros l' H x Hx; cbn [filterM] in H.
  - inversion H; subst. destruct Hx.
  - apply bind_ok in H. destruct H as [b [Eb H]].
    apply bind_ok in H. destruct H as [ys [Ey H]].
    inversion H; subst. destruct b.
    + destruct Hx as [<- | Hx]; [split; [left; reflexivity | exact Eb] |].
      destruct (IH ys Ey x Hx). split; [right |]; assumption.
    + destruct (IH ys Ey x Hx). split; [right |]; assumption.
Qed.

Lemma filterM_err {A} (f : A -> result bool) (l : list A) (e : error) :
  filterM f l = Err e -> exists x, In x l /\ f x = Err e.
Proof.
  induction l as [| y r IH]; cbn [filterM]; [discriminate |]. intros H.
  apply bind_err in H. destruct H as [H | [b [_ H]]].
  - exists y. split; [left; reflexivity | exact H].
  - apply bind_err in H. destruct H as [H | [ys [_ H]]]; [| discriminate].
    destruct (IH H) as [x [Hx Ex]]. exists x. split; [right |]; assumption.
Qed.

Lemma mapM_err {A B} (f : A -> result B) (l : list A) (e : error) :
  mapM f l = Err e -> exists x, In x l /\ f x = Err e.
Proof.
  induction l as [| y r IH]; cbn [mapM]; [discriminate |]. intros H.
  apply bind_err in H. destruct H as [H | [b [_ H]]].
  - exists y. split; [left; reflexivity | exact H].
  - apply bind_err in H. destruct H as [H | [ys [_ H]]]; [| discriminate].
    destruct (IH H) as [x [Hx Ex]]. exists x. split; [right |]; assumption.
Qed.

Lemma foldM_err {A B} (f : A -> B -> result A) (l : list B) (e : error) :
  forall a, foldM f l a = Err e -> exists a' x, In x l /\ f a' x = Err e.
Proof.
  induction l as [| y r IH]; intros a; cbn [foldM]; [discriminate |]. intros H.
  apply bind_err in H. destruct H as [H | [a' [_ H]]].
  - exists a, y. split; [left; reflexivity | exact H].
  - destruct (IH a' H) as [a'' [x [Hx Ex]]]. exists a'', x.
    split; [right |]; assumption.
Qed.

Section SortFacts.
Context {A : Type}.
Variable le : A -> A -> bool.

Lemma insert_by_perm (x : A) (l : list A) : Permutation (insert_by le x l) (x :: l).
Proof.
  induction l as [| y r IH]; cbn [insert_by]; [reflexivity |].
  destruct (le x y); [reflexivity |].
  rewrite IH. apply perm_swap.
Qed.

Lemma stable_sort_perm (l : list A) : Permutation (stable_sort le l) l.
Proof.
  induction l as [| x r IH]; cbn; [constructor |].
  rewrite insert_by_perm. constructor. exact IH.
Qed.

(** On a set of elements that [le] orders totally and transitively the
    result is sorted. *)
Variable P : A -> Prop.
Hypothesis le_total : forall x y, P x -> P y -> le x y = false -> le y x = true.
Hypothesis le_trans :
  forall x y z, P x -> P y -> P z -> le x y = true -> le y z = true -> le x z = true.

Lemma insert_by_sorted (x : A) (l : list A) :
  P x -> Forall P l ->
  StronglySorted (fun a b => le a b = true) l ->
  StronglySorted (fun a b => le a b = true) (insert_by le x l).
Proof.
  intros Px Pl S. induction S as [| y r S IH Hy]; cbn [insert_by].
  - constructor; constructor.
  - inversion Pl as [| ? ? Py Pr]; subst.
    destruct (le x y) eqn:E.
    + constructor; [constructor; assumption |].
      constructor; [exact E |].
      rewrite Forall_forall in *. intros z Hz.
      apply (le_trans x y z); auto.
    + constructor; [apply IH; exact Pr |].
      eapply Permutation_Forall; [symmetry; apply insert_by_perm |].
      constructor; [apply le_total; auto | exact Hy].
Qed.

Lemma stable_sort_sorted (l : list A) :
  Forall P l -> StronglySorted (fun a b => le a b = true) (stable_sort le l).
Proof.
  induction 1 as [| x r Px Pr IH]; cbn; [constructor |].
  apply insert_by_sorted; auto.
  eapply Permutation_Forall; [symmetry; apply stable_sort_perm | exact Pr].
Qed.
End SortFacts.

Lemma map_insert_by {A B} (f : A -> B) (le : B -> B -> bool) (x : A) (l : list A) :
  map f (insert_by (fun a b => le (f a) (f b)) x l) = insert_by le (f x) (map f l).
Proof.
  induction l as [| y r IH]; cbn [insert_by map]; [reflexivity |].
  destruct (le (f x) (f y)); cbn [map]; [reflexivity | rewrite IH; reflexivity].
Qed.

Lemma map_stable_sort {A B} (f : A -> B) (le : B -> B -> bool) (l : list A) :
  map f (stable_sort (fun a b => le (f a) (f b)) l) = stable_sort le (map f l).
Proof.
  induction l as [| x r IH]; [reflexivity |].
  unfold stable_sort in *. cbn [fold_right map].
  rewrite <- IH. apply map_insert_by.
Qed.

Lemma filter_sorted {A} (R : A -> A -> Prop) (g : A -> bool) (l : list A) :
  StronglySorted R l -> StronglySorted R (filter g l).
Proof.
  induction 1 as [| x r S IH Hx]; cbn [filter]; [constructor |].
  destruct (g x); [| exact IH].
  constructor; [exact IH |].
  rewrite Forall_forall in *. intros y Hy. apply filter_In in Hy. apply Hx, Hy.
Qed.

(** ** The [$near] stage *)

Lemma StronglySorted_weaken {A} (R R' : A -> A -> Prop) (l : list A) :
  (forall a b, In a l -> In b l -> R a b -> R' a b) ->
  StronglySorted R l -> StronglySorted R' l.
Proof.
  intros H S. induction S as [| x r S IH Hx]; constructor.
  - apply IH. intros a b Ha Hb. apply H; right; assumption.
  - rewrite Forall_forall in *. intros y Hy.
    apply H; [left; reflexivity | right; exact Hy | apply Hx, Hy].
Qed.

Lemma compareAscending_leb (x y : Qc) :
  (compareAscending (Num x) (Num y) <=? 0)%Z = Qle_bool x y.
Proof.
  unfold compareAscending.
  destruct (Qle_bool x y) eqn:E; cbn [negb]; [| reflexivity].
  destruct (Qle_bool y x); reflexivity.
Qed.

Lemma Qle_bool_total (x y : Q) : Qle_bool x y = false -> Qle_bool y x = true.
Proof.
  intros H. apply Qle_bool_iff.
  destruct (Qlt_le_dec x y) as [L | L]; [| exact L].
  apply Qlt_le_weak, Qle_bool_iff in L. congruence.
Qed.

Lemma Qle_bool_trans (x y z : Q) :
  Qle_bool x y = true -> Qle_bool y z = true -> Qle_bool x z = true.
Proof. rewrite !Qle_bool_iff. apply Qle_trans. Qed.

Lemma num_geb_0_num (x : number) :
  num_geb x (num_of_Z 0) = true -> exists q, x = Num q.
Proof. destruct x; [discriminate | eauto]. Qed.

Lemma sortBy_perm {A} (key : A -> number) (l : list A) :
  Permutation (sortBy key l) l.
Proof. apply stable_sort_perm. Qed.

Lemma sortBy_map {A B} (key : B -> number) (f : A -> B) (l : list A) :
  sortBy key (map f l) = map f (sortBy (fun a => key (f a)) l).
Proof.
  unfold sortBy. symmetry.
  apply (map_stable_sort f (fun a b => (compareAscending (key a) (key b) <=? 0)%Z)).
Qed.

(** Sorting by distance sorts, when every distance is a number. *)
Lemma sortBy_sorted (distance_of : value -> number) (l : list value) :
  Forall (fun d => exists q, distance_of d = Num q) l ->
  StronglySorted (closer distance_of) (sortBy distance_of l).
Proof.
  intros H.
  apply StronglySorted_weaken
    with (R := fun a b =>
                 (compareAscending (distance_of a) (distance_of b) <=? 0)%Z = true).
  - intros a b Ha Hb.
    assert (Hl : forall d, In d (sortBy distance_of l) -> exists q, distance_of d = Num q).
    { intros d Hd. rewrite Forall_forall in H. apply H.
      eapply Permutation_in; [apply sortBy_perm | exact Hd]. }
    destruct (Hl a Ha) as [x Ex], (Hl b Hb) as [y Ey].
    unfold closer. rewrite Ex, Ey, compareAscending_leb. auto.
  - apply stable_sort_sorted with (P := fun d => exists q, distance_of d = Num q).
    + intros a b [x Ex] [y Ey]. rewrite Ex, Ey, !compareAscending_leb.
      apply Qle_bool_total.
    + intros a b c [x Ex] [y Ey] [z Ez]. rewrite Ex, Ey, Ez, !compareAscending_leb.
      apply Qle_bool_trans.
    + exact H.
Qed.

Section NearFacts.
Variable lib : imports.

Lemma is_point_or_line_pure (key : string) (d : value) :
  nullish d = false -> is_point_or_line key d = Ok (point_or_line key d).
Proof.
  intros H. unfold is_point_or_line, get_prop. rewrite H. reflexivity.
Qed.

(** The body of the loop as a composition of filters and a sort. *)
Lemma near_step_eq (key : string) (near geo : value) (docs : list value)
      (distance_of : value -> number) :
  (forall d, In d docs -> nullish d = false) ->
  (forall d, In d docs -> point_or_line key d = true ->
             getDistance lib geo (get d key) = Ok (distance_of d)) ->
  max_distance_fits near ->
  near_step lib key near geo docs
  = Ok (filter (fun d => within_max near (distance_of d))
          (sortBy distance_of
             (filter (fun d => num_geb (distance_of d) (num_of_Z 0))
                (filter (point_or_line key) docs)))).
Proof.
  intros Hdocs Hdist Hmax. unfold near_step.
  rewrite (filterM_pure _ (point_or_line key))
    by (intros d Hd; apply is_point_or_line_pure, Hdocs, Hd).
  cbn [bind].
  set (mk := fun d => {| n_doc := d; n_distance := distance_of d |}).
  rewrite (mapM_pure _ mk).
  2:{ intros d Hd. apply filter_In in Hd. destruct Hd as [Hd Hp].
      rewrite (Hdist d Hd Hp). reflexivity. }
  cbn [bind].
  rewrite (filter_map_swap (fun it => num_geb (n_distance it) (num_of_Z 0)) mk).
  cbn [mk n_distance].
  rewrite (sortBy_map n_distance mk). cbn [mk n_distance].
  set (sorted := sortBy distance_of _).
  assert (Back : forall l, map n_doc (map mk l) = l).
  { intros l. rewrite map_map. cbn. apply map_id. }
  destruct Hmax as [E | [m [E T]]].
  - unfold within_max. rewrite E. cbn [truthy bind].
    rewrite Back. f_equal. symmetry. apply forallb_filter_id.
    apply forallb_forall. reflexivity.
  - rewrite E, T.
    rewrite (filterM_pure _ (fun it => num_leb (n_distance it) m))
      by (intros it _; reflexivity).
    cbn [bind]. rewrite (filter_map_swap _ mk). rewrite Back.
    f_equal. apply filter_ext. intros d. unfold within_max. rewrite E, T.
    reflexivity.
Qed.
End NearFacts.

(** ** The error of [getDistance] is not reachable from [processFind] *)

Lemma supported_ok {A} (a : A) : supported (Ok a).
Proof. discriminate. Qed.

Lemma supported_bind {A B} (r : result A) (k : A -> result B) :
  supported r -> (forall a, r = Ok a -> supported (k a)) -> supported (bind r k).
Proof.
  unfold supported. intros Hr Hk H. apply bind_err in H.
  destruct H as [H | [a [E H]]]; [exact (Hr H) | exact (Hk a E H)].
Qed.

Lemma supported_ext {A} (callee : string) (r : option A) : supported (ext callee r).
Proof. destruct r; discriminate. Qed.

Lemma supported_get_prop (v : value) (k : string) : supported (get_prop v k).
Proof. unfold get_prop. destruct (nullish v); discriminate. Qed.

Lemma supported_set_prop (o : value) (k : string) (x : value) :
  supported (set_prop o k x).
Proof.
  unfold set_prop. destruct o; try discriminate.
  destruct (String.eqb k "length"); [destruct (as_length x) | destruct (array_index k)];
    discriminate.
Qed.

Lemma supported_delete_prop (o : value) (k : string) : supported (delete_prop o k).
Proof.
  unfold delete_prop. destruct o; try discriminate.
  - destruct (String.eqb k "length"); [discriminate |].
    destruct (array_index k) as [i |]; [| discriminate].
    destruct (Nat.ltb i (String.length s)); discriminate.
  - destruct (String.eqb k "length"); [discriminate |].
    destruct (array_index k) as [i |]; [| discriminate].
    destruct (Nat.ltb i (List.length elems)); discriminate.
Qed.

Lemma supported_to_number (v : value) : supported (to_number v).
Proof. destruct v; discriminate. Qed.

Lemma supported_iterate (v : value) : supported (iterate v).
Proof. destruct v; discriminate. Qed.

Lemma supported_mapM {A B} (f : A -> result B) (l : list A) :
  (forall x, In x l -> supported (f x)) -> supported (mapM f l).
Proof.
  intros H E. apply mapM_err in E. destruct E as [x [Hx E]]. exact (H x Hx E).
Qed.

Lemma supported_filterM {A} (f : A -> result bool) (l : list A) :
  (forall x, In x l -> supported (f x)) -> supported (filterM f l).
Proof.
  intros H E. apply filterM_err in E. destruct E as [x [Hx E]]. exact (H x Hx E).
Qed.

Lemma supported_foldM {A B} (f : A -> B -> result A) (l : list B) (a : A) :
  (forall a x, supported (f a x)) -> supported (foldM f l a).
Proof.
  intros H E. apply foldM_err in E. destruct E as [a' [x [_ E]]]. exact (H a' x E).
Qed.

Create HintDb supported.

#[local] Hint Resolve supported_ok supported_ext supported_get_prop supported_set_prop
  supported_delete_prop supported_to_number supported_iterate : supported.

Ltac supported_step :=
  match goal with
  | |- supported (bind _ _) => apply supported_bind; [| intros ? ?]
  | |- supported (if ?b then _ else _) => destruct b eqn:?
  | |- supported (match ?o with Some _ => _ | None => _ end) => destruct o eqn:?
  | |- supported (Err _) => discriminate
  | |- supported _ => solve [auto with supported]
  end.

Section Reachability.
Variable lib : imports.

(** On a point or a line [getDistance] calls turf. *)
Lemma getDistance_supported (from d : value) (key : string) :
  is_point_or_line key d = Ok true -> supported (getDistance lib from (get d key)).
Proof.
  unfold is_point_or_line, get_prop. destruct (nullish d); [discriminate |].
  cbn [bind]. intros H. inversion H as [H'].
  apply andb_true_iff in H'. destruct H' as [T Ty].
  unfold getDistance, get_prop.
  assert (N : nullish (get d key) = false)
    by (destruct (get d key); try reflexivity; discriminate).
  rewrite N. cbn [bind].
  destruct (strict_eq (get (get d key) "type") (VStr "Point")); [supported_step |].
  cbn [orb] in Ty. rewrite Ty. repeat supported_step.
Qed.

Lemma near_step_supported (key : string) (near geo : value) (docs : list value) :
  supported (near_step lib key near geo docs).
Proof.
  unfold near_step. apply supported_bind.
  - apply supported_filterM. intros d _. unfold is_point_or_line.
    repeat supported_step.
  - intros kept Hk. apply supported_bind.
    + apply supported_mapM. intros d Hd.
      destruct (filterM_ok _ _ _ Hk d Hd) as [_ Hp].
      apply supported_bind; [| intros; supported_step].
      apply getDistance_supported. exact Hp.
    + intros distances _. apply supported_bind; [| intros; supported_step].
      destruct (truthy (get near "$maxDistance")); [| supported_step].
      apply supported_filterM. intros it _. repeat supported_step.
Qed.

Lemma near_loop_supported (sel : list (string * value)) :
  forall docs, supported (near_loop lib sel docs).
Proof.
  induction sel as [| [key val] rest IH]; intros docs; cbn [near_loop].
  - supported_step.
  - destruct (negb (nullish val) && truthy (get val "$near")); [| apply IH].
    apply supported_bind; [supported_step |]. intros t _.
    destruct (negb (strict_eq t (VStr "Point"))); [supported_step |].
    apply supported_bind; [apply near_step_supported | intros; apply IH].
Qed.

Lemma any_line_supported (geo : value) (lines : list value) :
  supported (any_line lib geo lines).
Proof.
  induction lines as [| line rest IH]; cbn [any_line]; [supported_step |].
  apply supported_bind; [supported_step |]. intros len _.
  destruct (strict_eq len (VNum (num_of_Z 0))); [exact IH |].
  apply supported_bind; [unfold crosses_or_within; repeat supported_step |].
  intros b _. destruct b; [supported_step | exact IH].
Qed.

Lemma intersects_supported (key : string) (geo d : value) :
  supported (intersects lib key geo d).
Proof.
  unfold intersects, crosses_or_within.
  repeat first [apply any_line_supported | supported_step].
Qed.

Lemma geo_loop_supported (sel : list (string * value)) :
  forall docs, supported (geo_loop lib sel docs).
Proof.
  induction sel as [| [key val] rest IH]; intros docs; cbn [geo_loop].
  - supported_step.
  - destruct (negb (nullish val) && truthy (get val "$geoIntersects")); [| apply IH].
    apply supported_bind; [supported_step |]. intros t _.
    destruct (negb (strict_eq t (VStr "Polygon"))); [supported_step |].
    apply supported_bind; [| intros; apply IH].
    apply supported_filterM. intros d _. apply intersects_supported.
Qed.
End Reachability.

Lemma copy_path_supported (path : list string) :
  forall from to, supported (copy_path path from to).
Proof.
  induction path as [| p rest IH]; intros from to; [apply supported_ok |].
  destruct rest as [| q rest'].
  - cbn [copy_path]. repeat supported_step.
  - change (copy_path (p :: q :: rest') from to)
      with (let sub := if truthy (get to p) then get to p else VObj [] in
            to' <- set_prop to p sub ;;
            from' <- get_prop from p ;;
            sub' <- copy_path (q :: rest') from' sub ;;
            Ok (put_back to' p sub')).
    cbv zeta. apply supported_bind; [supported_step |]. intros to' _.
    apply supported_bind; [supported_step |]. intros from' _.
    apply supported_bind; [apply IH | intros; supported_step].
Qed.

Lemma delete_path_supported (path : list string) :
  forall obj, supported (delete_path path obj).
Proof.
  induction path as [| p rest IH]; intros obj; [apply supported_ok |].
  destruct rest as [| q rest'].
  - cbn [delete_path]. repeat supported_step.
  - change (delete_path (p :: q :: rest') obj)
      with (if truthy obj then
              sub' <- delete_path (q :: rest') (get obj p) ;;
              Ok (put_back obj p sub')
            else if nullish obj then Ok obj
                 else delete_prop obj (last (q :: rest') "")).
    destruct (truthy obj).
    + apply supported_bind; [apply IH | intros; supported_step].
    + repeat supported_step.
Qed.

Lemma filterFields_supported (items : list value) (fields : value) :
  supported (filterFields items fields).
Proof.
  unfold filterFields.
  set (fs := if is_undefined fields then VObj [] else fields).
  destruct (Nat.eqb (List.length (keys fs)) 0); [supported_step |].
  apply supported_mapM. intros item _.
  destruct (strict_eq (hd VUndefined (values fs)) (VNum (num_of_Z 1))).
  - unfold include_item. apply supported_foldM. intros a x.
    unfold include_field. destruct (nullish (walk (split_dot x) item));
      [supported_step | apply copy_path_supported].
  - unfold exclude_item. apply supported_bind.
    + unfold json_clone. destruct (json_copy item); discriminate.
    + intros c _. apply supported_foldM. intros a x. apply delete_path_supported.
Qed.

(** C9. The throwing branch of [getDistance] is not reachable from the
    [$near] stage: the documents are first filtered to those whose field is
    a [Point] or a [LineString], so neither [processNearOperator] nor
    [processFind] throws the "Unsupported type" error, whatever the documents,
    the selector and the options, and whatever the imported functions do. *)
Theorem unsupported_type_unreachable (lib : imports) (selector : value) :
  (forall docs, processNearOperator lib selector docs <> Err UnsupportedType)
  /\ (forall items options, processFind lib items selector options <> Err UnsupportedType).
Proof.
  split.
  - intros docs. apply near_loop_supported.
  - intros items options. change (supported (processFind lib items selector options)).
    unfold processFind, toInteger_value.
    apply supported_bind; [supported_step |]. intros pred _.
    apply supported_bind; [apply near_loop_supported |]. intros l1 _.
    apply supported_bind; [apply geo_loop_supported |]. intros l2 _.
    apply supported_bind; [repeat supported_step |]. intros l3 _.
    apply supported_bind; [repeat supported_step |]. intros l4 _.
    apply supported_bind; [repeat supported_step |]. intros l5 _.
    destruct (truthy options && truthy (get options "fields"));
      [apply filterFields_supported | supported_step].
Qed.

Lemma Permutation_filter {A} (f : A -> bool) (l l' : list A) :
  Permutation l l' -> Permutation (filter f l) (filter f l').
Proof.
  induction 1 as [| x l l' _ IH | x y l | l l' l'' _ IH1 _ IH2]; cbn [filter].
  - constructor.
  - destruct (f x); [constructor |]; exact IH.
  - destruct (f x), (f y); try reflexivity. apply perm_swap.
  - rewrite IH1. exact IH2.
Qed.

Lemma filter_filter {A} (f g : A -> bool) (l : list A) :
  filter f (filter g l) = filter (fun x => g x && f x) l.
Proof.
  induction l as [| x r IH]; cbn [filter]; [reflexivity |].
  destruct (g x); cbn [filter andb]; [destruct (f x) |]; rewrite IH; reflexivity.
Qed.

Section NearStage.
Variable lib : imports.

Lemma near_loop_skip (pre rest : list (string * value)) (docs : list value) :
  Forall (fun kv => carries "$near" (snd kv) = false) pre ->
  near_loop lib (pre ++ rest) docs = near_loop lib rest docs.
Proof.
  induction 1 as [| [k v] pre' Hkv _ IH]; [reflexivity |].
  cbn [app near_loop]. cbn [snd] in Hkv. unfold carries in Hkv. rewrite Hkv.
  exact IH.
Qed.

Lemma near_loop_done (post : list (string * value)) (docs : list value) :
  Forall (fun kv => carries "$near" (snd kv) = false) post ->
  near_loop lib post docs = Ok docs.
Proof.
  intros H. rewrite <- (app_nil_r post). rewrite near_loop_skip by exact H.
  reflexivity.
Qed.

(** C3, as amended. The [$near] stage, for a selector whose one [$near]
    has a [Point] geometry and a [$maxDistance] that is left out or is a
    number other than 0: the documents whose field is not a [Point] or a
    [LineString] are removed, those whose distance is negative or [NaN]
    are dropped (a distance of 0 is kept), those farther than
    [$maxDistance] are dropped, and the others are returned in ascending
    order of distance. *)
Theorem near_stage (selector : value) (pre post : list (string * value))
        (key : string) (cond : value) (docs : list value)
        (distance_of : value -> number) :
  let near := get cond "$near" in
  let geo := get near "$geometry" in
  entries selector = pre ++ (key, cond) :: post ->
  Forall (fun kv => carries "$near" (snd kv) = false) (pre ++ post) ->
  carries "$near" cond = true ->
  nullish geo = false ->
  strict_eq (get geo "type") (VStr "Point") = true ->
  max_distance_fits near ->
  (forall d, In d docs -> nullish d = false) ->
  (forall d, In d docs -> point_or_line key d = true ->
             getDistance lib geo (get d key) = Ok (distance_of d)) ->
  exists out,
    processNearOperator lib selector docs = Ok out
    /\ (forall d, In d out <-> In d docs /\ near_keeps key near distance_of d = true)
    /\ Permutation out (filter (near_keeps key near distance_of) docs)
    /\ StronglySorted (closer distance_of) out.
Proof.
  intros near geo Hsel Hothers Hcond Hgeo Hpoint Hmax Hdocs Hdist.
  apply Forall_app in Hothers. destruct Hothers as [Hpre Hpost].
  set (kept := filter (fun d => num_geb (distance_of d) (num_of_Z 0))
                      (filter (point_or_line key) docs)).
  set (out := filter (fun d => within_max near (distance_of d))
                     (sortBy distance_of kept)).
  assert (E : processNearOperator lib selector docs = Ok out).
  { unfold processNearOperator. rewrite Hsel, near_loop_skip by exact Hpre.
    cbn [near_loop]. unfold carries in Hcond. rewrite Hcond.
    fold near. fold geo. unfold get_prop. rewrite Hgeo. cbn [bind].
    rewrite Hpoint. cbn [negb].
    rewrite (near_step_eq lib key near geo docs distance_of Hdocs Hdist Hmax).
    cbn [bind]. apply near_loop_done. exact Hpost. }
  assert (P : Permutation out (filter (near_keeps key near distance_of) docs)).
  { unfold out. rewrite (Permutation_filter _ _ _ (sortBy_perm distance_of kept)).
    unfold kept. rewrite !filter_filter.
    match goal with |- Permutation ?a ?b => replace b with a; [reflexivity |] end.
    apply filter_ext. intros x. unfold near_keeps. apply andb_assoc. }
  exists out. split; [exact E |]. split; [| split; [exact P |]].
  - intros d. rewrite <- filter_In. split; intros H.
    + eapply Permutation_in; [exact P | exact H].
    + eapply Permutation_in; [symmetry; exact P | exact H].
  - unfold out. apply filter_sorted, sortBy_sorted.
    apply Forall_forall. intros d Hd. unfold kept in Hd.
    apply filter_In in Hd. apply num_geb_0_num, Hd.
Qed.
End NearStage.

(** With places 100 m and 2000 m away and a [$maxDistance] of 1000, only the
    place 100 m away is returned. *)
Lemma near_stage_witness :
  processNearOperator Plane.lib (Places.nearOriginWithin 1000) [ Places.far; Places.close ]
  = Ok [ Places.close ].
Proof.
  destruct (near_stage Plane.lib (Places.nearOriginWithin 1000) []
              [] "loc"
              (VObj [ ("$near", VObj [ ("$geometry", Places.origin);
                                       ("$maxDistance", Plane.num 1000) ]) ])
              [ Places.far; Places.close ] Places.from_origin)
    as [out [E [_ [P _]]]].
  - reflexivity.
  - constructor.
  - reflexivity.
  - reflexivity.
  - reflexivity.
  - right. eexists. split; reflexivity.
  - intros d [<- | [<- | []]]; reflexivity.
  - intros d [<- | [<- | []]] _; reflexivity.
  - rewrite E. f_equal. apply Permutation_length_1_inv.
    symmetry. exact P.
Defined.

(** A place at the query point has distance 0 and is returned; and with a
    [$maxDistance] of 0 a place 100 m away is returned. *)
Lemma near_keeps_distance_zero :
  (exists x,
      getDistance Plane.lib Places.origin (get Places.here "loc") = Ok x
      /\ num_leb x (num_of_Z 0) = true
      /\ processNearOperator Plane.lib Places.nearOrigin [ Places.here ]
         = Ok [ Places.here ])
  /\ (exists x,
         getDistance Plane.lib Places.origin (get Places.close "loc") = Ok x
         /\ num_leb x (num_of_Z 0) = false
         /\ processNearOperator Plane.lib (Places.nearOriginWithin 0) [ Places.close ]
            = Ok [ Places.close ]).
Proof. split; eexists; repeat split; reflexivity. Qed.

(** ** Geometries of another type *)

Section OtherGeometry.
Variable lib : imports.

Lemma geo_loop_skip (pre rest : list (string * value)) (docs : list value) :
  Forall (fun kv => carries "$geoIntersects" (snd kv) = false) pre ->
  geo_loop lib (pre ++ rest) docs = geo_loop lib rest docs.
Proof.
  induction 1 as [| [k v] pre' Hkv _ IH]; [reflexivity |].
  cbn [app geo_loop]. cbn [snd] in Hkv. unfold carries in Hkv. rewrite Hkv.
  exact IH.
Qed.

(** C5, as amended. A [$near] whose [$geometry] is an object of another
    type than [Point], and a [$geoIntersects] whose [$geometry] is an
    object of another type than [Polygon], raise no error: the stage stops
    at that field and returns the documents as they are. *)
Theorem other_geometry_stops (selector : value) (pre post : list (string * value))
        (key : string) (cond : value) (docs : list value) :
  entries selector = pre ++ (key, cond) :: post ->
  (Forall (fun kv => carries "$near" (snd kv) = false) pre ->
   carries "$near" cond = true ->
   nullish (get (get cond "$near") "$geometry") = false ->
   strict_eq (get (get (get cond "$near") "$geometry") "type") (VStr "Point") = false ->
   processNearOperator lib selector docs = Ok docs)
  /\ (Forall (fun kv => carries "$geoIntersects" (snd kv) = false) pre ->
      carries "$geoIntersects" cond = true ->
      nullish (get (get cond "$geoIntersects") "$geometry") = false ->
      strict_eq (get (get (get cond "$geoIntersects") "$geometry") "type")
                (VStr "Polygon") = false ->
      processGeoIntersectsOperator lib selector docs = Ok docs).
Proof.
  intros Hsel. split; intros Hpre Hcond Hgeo Htype.
  - unfold processNearOperator. rewrite Hsel, near_loop_skip by exact Hpre.
    cbn [near_loop]. unfold carries in Hcond. rewrite Hcond.
    unfold get_prop. rewrite Hgeo. cbn [bind]. rewrite Htype. reflexivity.
  - unfold processGeoIntersectsOperator. rewrite Hsel, geo_loop_skip by exact Hpre.
    cbn [geo_loop]. unfold carries in Hcond. rewrite Hcond.
    unfold get_prop. rewrite Hgeo. cbn [bind]. rewrite Htype. reflexivity.
Qed.
End OtherGeometry.

Lemma other_geometry_stops_witness :
  processGeoIntersectsOperator Plane.lib (Plane.geoIntersects Places.origin)
                               [ Places.far; Places.close ]
  = Ok [ Places.far; Places.close ].
Proof.
  apply (proj2 (other_geometry_stops Plane.lib (Plane.geoIntersects Places.origin)
                  [] [] "loc"
                  (VObj [ ("$geoIntersects", VObj [ ("$geometry", Places.origin) ]) ])
                  [ Places.far; Places.close ] eq_refl)).
  - constructor.
  - reflexivity.
  - reflexivity.
  - reflexivity.
Defined.

(** A [$near] with a polygon and a [$geoIntersects] with a point return the
    documents; no error is raised. *)
Lemma other_geometry_passes :
  processNearOperator Plane.lib (Plane.near (Plane.polygon 0 0 10 10) [])
                      [ Places.far; Places.close ]
  = Ok [ Places.far; Places.close ]
  /\ processGeoIntersectsOperator Plane.lib (Plane.geoIntersects Places.origin)
                                  [ Places.far; Places.close ]
     = Ok [ Places.far; Places.close ].
Proof. split; reflexivity. Qed.

(** ** The order of the stages *)

Lemma Qfloor_inject (z : Z) : Qfloor (this (Q2Qc (inject_Z z))) = z.
Proof.
  unfold Q2Qc; cbn [this]. rewrite (Qfloor_comp _ _ (Qred_correct (inject_Z z))).
  apply Qfloor_Z.
Qed.

Lemma toInteger_nat (n : nat) : toInteger (num_of_nat n) = Z.of_nat n.
Proof.
  unfold toInteger, num_of_nat, num_of_Z, Qtrunc.
  change 0%Q with (this (Q2Qc (inject_Z 0))). rewrite Qle_bool_inject.
  replace (0 <=? Z.of_nat n)%Z with true by (symmetry; apply Z.leb_le; lia).
  apply Qfloor_inject.
Qed.

Lemma truthy_positive (n : nat) : truthy (VNum (num_of_nat (S n))) = true.
Proof.
  unfold truthy, num_of_nat, num_of_Z. apply negb_true_iff.
  destruct (Qeq_bool _ 0) eqn:E; [| reflexivity].
  apply Qeq_bool_iff in E. unfold Q2Qc in E; cbn [this] in E.
  rewrite Qred_correct in E.
  unfold Qeq, inject_Z in E; cbn [Qnum Qden] in E. lia.
Qed.

Lemma slice_from_nat (n : nat) (l : list value) : slice_from (Z.of_nat n) l = skipn n l.
Proof.
  unfold slice_from.
  replace (Z.of_nat n <? 0)%Z with false by (symmetry; apply Z.ltb_ge; lia).
  rewrite Nat2Z.id. reflexivity.
Qed.

Lemma take_nat (n : nat) (l : list value) : take (Z.of_nat n) l = firstn n l.
Proof.
  unfold take.
  replace (Z.of_nat n <? 0)%Z with false by (symmetry; apply Z.ltb_ge; lia).
  rewrite Nat2Z.id. reflexivity.
Qed.

(** C2. [processFind] runs the seven stages in their order: the compiled
    selector, [$near], [$geoIntersects], [options.sort], skip, limit and
    the projection of the fields; in particular it skips before it limits. *)
Theorem processFind_pipeline (lib : imports) (items : list value)
        (selector options : value) :
  processFind lib items selector options
  = run (pipeline lib selector options) items
  /\ (forall s n docs,
        let options := VObj [ ("skip", VNum (num_of_nat (S s)));
                              ("limit", VNum (num_of_nat (S n))) ] in
        run [ stage_skip options; stage_limit options ] docs
        = Ok (firstn (S n) (skipn (S s) docs))).
Proof.
  split.
  - unfold processFind, run, pipeline. cbn [foldM].
    unfold stage_selector at 1.
    destruct (ext "compileDocumentSelector" (compileDocumentSelector lib selector))
      as [pred |]; cbn [bind]; [| reflexivity].
    unfold stage_near at 1.
    destruct (processNearOperator lib selector (filter pred items)) as [l1 |];
      cbn [bind]; [| reflexivity].
    unfold stage_geoIntersects at 1.
    destruct (processGeoIntersectsOperator lib selector l1) as [l2 |];
      cbn [bind]; [| reflexivity].
    unfold stage_sort at 1, option_of.
    destruct (truthy options && truthy (get options "sort")).
    + destruct (ext "compileSort" (compileSort lib (get options "sort"))) as [cmp |];
        cbn [bind]; [| reflexivity].
      generalize (js_sort cmp l2). intros l3.
      unfold stage_skip at 1, stage_limit at 1, stage_fields at 1, option_of.
      destruct (truthy options && truthy (get options "skip"));
        [destruct (toInteger_value (get options "skip")); cbn [bind]; [| reflexivity] |];
        (destruct (truthy options && truthy (get options "limit"));
         [destruct (toInteger_value (get options "limit")); cbn [bind]; [| reflexivity] |]);
        cbn [bind];
        destruct (truthy options && truthy (get options "fields"));
        try reflexivity;
        match goal with |- ?x = bind ?x _ => destruct x; reflexivity end.
    + cbn [bind]. revert l2. intros l3.
      unfold stage_skip at 1, stage_limit at 1, stage_fields at 1, option_of.
      destruct (truthy options && truthy (get options "skip"));
        [destruct (toInteger_value (get options "skip")); cbn [bind]; [| reflexivity] |];
        (destruct (truthy options && truthy (get options "limit"));
         [destruct (toInteger_value (get options "limit")); cbn [bind]; [| reflexivity] |]);
        cbn [bind];
        destruct (truthy options && truthy (get options "fields"));
        try reflexivity;
        match goal with |- ?x = bind ?x _ => destruct x; reflexivity end.
  - intros s n docs opts. unfold run, stage_skip, stage_limit, option_of, opts.
    cbn [foldM truthy andb].
    change (get (VObj [ ("skip", VNum (num_of_nat (S s)));
                        ("limit", VNum (num_of_nat (S n))) ]) "skip")
      with (VNum (num_of_nat (S s))).
    change (get (VObj [ ("skip", VNum (num_of_nat (S s)));
                        ("limit", VNum (num_of_nat (S n))) ]) "limit")
      with (VNum (num_of_nat (S n))).
    rewrite !truthy_positive. unfold toInteger_value. cbn [to_number bind].
    rewrite !toInteger_nat, slice_from_nat, take_nat. reflexivity.
Qed.

(** ** [options.sort] after [$near] *)

Lemma filter_partition_perm {A} (f : A -> bool) (l : list A) :
  Permutation (filter (fun x => negb (f x)) l ++ filter f l) l.
Proof.
  induction l as [| x r IH]; cbn [filter]; [constructor |].
  destruct (f x); cbn [negb app].
  - rewrite <- Permutation_middle. constructor. exact IH.
  - constructor. exact IH.
Qed.

Lemma js_sort_perm (cmp : value -> value -> number) (l : list value) :
  Permutation (js_sort cmp l) l.
Proof.
  unfold js_sort. rewrite stable_sort_perm. apply filter_partition_perm.
Qed.


(** The sort is stable: elements that the order does not tell apart stay in
    the order they had. *)
Lemma insert_by_stable {A} (le : A -> A -> bool) (q : A -> bool) (x : A) (l : list A) :
  (forall a b, q a = true -> q b = true -> le a b = true) ->
  filter q (insert_by le x l) = filter q (x :: l).
Proof.
  intros H. induction l as [| y r IH]; [reflexivity |].
  cbn [insert_by]. destruct (le x y) eqn:E; [reflexivity |].
  cbn [filter] in *. rewrite IH.
  destruct (q x) eqn:Qx, (q y) eqn:Qy; try reflexivity.
  rewrite (H x y Qx Qy) in E. discriminate.
Qed.

Lemma stable_sort_stable {A} (le : A -> A -> bool) (q : A -> bool) (l : list A) :
  (forall a b, q a = true -> q b = true -> le a b = true) ->
  filter q (stable_sort le l) = filter q l.
Proof.
  intros H. induction l as [| x r IH]; [reflexivity |].
  unfold stable_sort in *. cbn [fold_right].
  rewrite (insert_by_stable le q x _ H). cbn [filter]. rewrite IH. reflexivity.
Qed.




(** ** [getDistance] *)



(** ** Multi-geometries in the [$geoIntersects] stage *)

Section MultiGeometry.
Variable lib : imports.
Variables (key : string) (geo : value).









End MultiGeometry.


(** ** Dotted paths *)

Lemma assoc_replace_other (k k' : string) (x : value) (ps : list (string * value)) :
  k <> k' -> assoc k' (replace_assoc k x ps) = assoc k' ps.
Proof.
  intros N. induction ps as [| [j v] r IH]; cbn [replace_assoc assoc].
  - destruct (String.eqb k' k) eqn:E; [apply String.eqb_eq in E; congruence | reflexivity].
  - destruct (String.eqb k j) eqn:E; cbn [assoc].
    + apply String.eqb_eq in E; subst j.
      destruct (String.eqb k' k) eqn:E'; [apply String.eqb_eq in E'; congruence | reflexivity].
    + rewrite IH. reflexivity.
Qed.

Lemma replace_assoc_same (k : string) (x : value) (ps : list (string * value)) :
  assoc k ps = Some x -> replace_assoc k x ps = ps.
Proof.
  induction ps as [| [j v] r IH]; cbn [replace_assoc assoc]; [discriminate |].
  destruct (String.eqb k j) eqn:E.
  - apply String.eqb_eq in E; subst j. intros H; inversion H; reflexivity.
  - intros H. rewrite (IH H). reflexivity.
Qed.

Lemma update_replace_assoc (k : string) (x y : value) (ps : list (string * value)) :
  update_assoc k y (replace_assoc k x ps) = replace_assoc k y ps.
Proof.
  induction ps as [| [j v] r IH]; cbn [replace_assoc update_assoc].
  - rewrite String.eqb_refl. reflexivity.
  - destruct (String.eqb k j) eqn:E; cbn [update_assoc].
    + rewrite String.eqb_refl. reflexivity.
    + rewrite E, IH. reflexivity.
Qed.

Lemma get_set_key_same (o : value) (k : string) (x : value) :
  is_object o -> get (set_key o k x) k = x.
Proof.
  destruct o; cbn [is_object]; try tauto. intros _.
  cbn [set_key get]. rewrite assoc_replace_same. reflexivity.
Qed.

Lemma get_set_key_other (o : value) (k k' : string) (x : value) :
  k <> k' -> get (set_key o k x) k' = get o k'.
Proof.
  intros N. destruct o; try reflexivity.
  cbn [set_key get]. rewrite assoc_replace_other by exact N. reflexivity.
Qed.

Lemma set_key_object (o : value) (k : string) (x : value) :
  is_object o -> is_object (set_key o k x).
Proof. destruct o; cbn; tauto. Qed.

Lemma get_nullish (v : value) (k : string) : nullish v = true -> get v k = VUndefined.
Proof. destruct v; try discriminate; reflexivity. Qed.

Lemma lookup_cons (k : string) (p : list string) (v : value) :
  lookup (k :: p) v = lookup p (get v k).
Proof. reflexivity. Qed.

Lemma lookup_app (p q : list string) (v : value) :
  lookup (p ++ q) v = lookup q (lookup p v).
Proof. apply fold_left_app. Qed.

Lemma lookup_undefined (p : list string) : lookup p VUndefined = VUndefined.
Proof. induction p as [| k p IH]; [reflexivity | exact IH]. Qed.

Lemma lookup_of_nullish (p : list string) (v : value) :
  nullish v = true -> nullish (lookup p v) = true.
Proof.
  intros N. destruct p as [| k p]; [exact N |].
  rewrite lookup_cons, get_nullish, lookup_undefined by exact N. reflexivity.
Qed.

Lemma lookup_empty_object (k : string) (p : list string) :
  lookup (k :: p) (VObj []) = VUndefined.
Proof. rewrite lookup_cons. apply lookup_undefined. Qed.

Lemma is_object_truthy (v : value) : is_object v -> truthy v = true.
Proof. destruct v; cbn; tauto. Qed.

Lemma is_object_not_nullish (v : value) : is_object v -> nullish v = false.
Proof. destruct v; cbn; tauto. Qed.

Lemma through_objects_object (k : string) (p : list string) (v : value) :
  through_objects (k :: p) v -> is_object v.
Proof. destruct v; cbn; tauto. Qed.

Lemma through_objects_step (k k' : string) (p : list string) (v : value) :
  through_objects (k :: k' :: p) v ->
  nullish (get v k) = true \/ through_objects (k' :: p) (get v k).
Proof. destruct v; cbn [through_objects]; tauto. Qed.

Lemma through_objects_empty (p : list string) : through_objects p (VObj []).
Proof.
  destruct p as [| k [| k' p]]; cbn [through_objects]; auto.
Qed.

Lemma through_objects_make (k k' : string) (p : list string) (v : value) :
  is_object v ->
  nullish (get v k) = true \/ through_objects (k' :: p) (get v k) ->
  through_objects (k :: k' :: p) v.
Proof. destruct v; cbn [is_object through_objects]; tauto. Qed.

(** The object that [assign] goes into at the first key of a longer path. *)
Lemma assign_sub (k k' : string) (p : list string) (to : value) :
  through_objects (k :: k' :: p) to ->
  let sub := if truthy (get to k) then get to k else VObj [] in
  through_objects (k' :: p) sub
  /\ is_object sub
  /\ (nullish (get to k) = false -> sub = get to k).
Proof.
  intros T sub. destruct (through_objects_step _ _ _ _ T) as [N | T'].
  - assert (F : truthy (get to k) = false)
      by (destruct (get to k); try discriminate; reflexivity).
    unfold sub. rewrite F. split; [apply through_objects_empty |].
    split; [exact I | congruence].
  - pose proof (through_objects_object _ _ _ T') as O.
    unfold sub. rewrite (is_object_truthy _ O). auto.
Qed.

Lemma assign_cons2 (k k' : string) (p : list string) (x to : value) :
  assign (k :: k' :: p) x to
  = set_key to k (assign (k' :: p) x (if truthy (get to k) then get to k else VObj [])).
Proof. reflexivity. Qed.

Lemma assign_object (p : list string) (x to : value) :
  is_object to -> is_object (assign p x to).
Proof.
  intros O. destruct p as [| k [| k' p]]; [exact O | |]; apply set_key_object, O.
Qed.

(** The value copied at [p] is found at [p], and what is below it at the
    paths that continue [p]. *)
Lemma lookup_assign_under (p : list string) :
  forall r x to,
    p <> [] -> through_objects p to ->
    lookup (p ++ r) (assign p x to) = lookup r x.
Proof.
  induction p as [| k p IH]; intros r x to NE T; [congruence |].
  pose proof (through_objects_object _ _ _ T) as O.
  destruct p as [| k' p].
  - cbn [assign app]. rewrite lookup_cons, get_set_key_same by exact O. reflexivity.
  - destruct (assign_sub _ _ _ _ T) as [Ts [Os _]].
    rewrite assign_cons2. cbn [app]. rewrite lookup_cons, get_set_key_same by exact O.
    apply (IH r x _); [discriminate | exact Ts].
Qed.

(** Above [p], on the way to it, the objects are kept and extended. *)
Lemma lookup_assign_above (q : list string) :
  forall r x to ps,
    r <> [] -> through_objects (q ++ r) to -> lookup q to = VObj ps ->
    lookup q (assign (q ++ r) x to) = assign r x (VObj ps).
Proof.
  induction q as [| k q IH]; intros r x to ps NE T L.
  - cbn in L. subst to. reflexivity.
  - assert (exists k' p', q ++ r = k' :: p') as [k' [p' E]].
    { destruct q; cbn [app]; [destruct r; [congruence | eauto] | eauto]. }
    cbn [app] in *. rewrite E in *.
    pose proof (through_objects_object _ _ _ T) as O.
    destruct (assign_sub _ _ _ _ T) as [Ts [Os Es]].
    rewrite assign_cons2, lookup_cons, get_set_key_same by exact O.
    rewrite lookup_cons in L.
    assert (N : nullish (get to k) = false).
    { destruct (nullish (get to k)) eqn:N; [| reflexivity].
      pose proof (lookup_of_nullish q _ N) as C. rewrite L in C. discriminate. }
    rewrite (Es N) in *. rewrite <- E in *.
    apply IH; auto.
Qed.

Lemma lookup_assign_above_object (q : list string) :
  forall r x to,
    r <> [] -> through_objects (q ++ r) to ->
    is_object (lookup q (assign (q ++ r) x to)).
Proof.
  induction q as [| k q IH]; intros r x to NE T.
  - cbn [app lookup fold_left]. apply assign_object.
    destruct r; [congruence | exact (through_objects_object _ _ _ T)].
  - assert (exists k' p', q ++ r = k' :: p') as [k' [p' E]].
    { destruct q; cbn [app]; [destruct r; [congruence | eauto] | eauto]. }
    cbn [app] in *. rewrite E in *.
    pose proof (through_objects_object _ _ _ T) as O.
    destruct (assign_sub _ _ _ _ T) as [Ts [Os Es]].
    rewrite assign_cons2, lookup_cons, get_set_key_same by exact O.
    rewrite <- E in *. apply IH; auto.
Qed.

(** Off the branch of [p] nothing changes. *)
Lemma lookup_assign_other (c : list string) :
  forall a p b q x to,
    a <> b -> through_objects (c ++ a :: p) to ->
    lookup (c ++ b :: q) (assign (c ++ a :: p) x to) = lookup (c ++ b :: q) to.
Proof.
  induction c as [| k c IH]; intros a p b q x to N T.
  - cbn [app] in *. rewrite !lookup_cons. f_equal.
    destruct p as [| k' p]; [cbn [assign] | rewrite assign_cons2];
      apply get_set_key_other, N.
  - assert (exists k' p', c ++ a :: p = k' :: p') as [k' [p' E]]
      by (destruct c; cbn; eauto).
    cbn [app] in *. rewrite E in *.
    pose proof (through_objects_object _ _ _ T) as O.
    destruct (assign_sub _ _ _ _ T) as [Ts [Os Es]].
    rewrite assign_cons2, !lookup_cons, get_set_key_same by exact O.
    rewrite <- E in *.
    destruct (nullish (get to k)) eqn:Nk.
    + assert (F : truthy (get to k) = false)
        by (destruct (get to k); try discriminate; reflexivity).
      rewrite F in *. rewrite (IH a p b q x (VObj []) N Ts).
      destruct c; cbn [app];
        rewrite lookup_empty_object, lookup_cons, (get_nullish _ _ Nk), lookup_undefined;
        reflexivity.
    + rewrite (Es eq_refl) in *. apply IH; auto.
Qed.

(** Copying what is there already changes nothing. *)
Lemma assign_same (p : list string) :
  forall x to,
    p <> [] -> through_objects p to -> lookup p to = x -> x <> VUndefined ->
    assign p x to = to.
Proof.
  induction p as [| k p IH]; intros x to NE T L X; [congruence |].
  pose proof (through_objects_object _ _ _ T) as O.
  destruct to as [| | | | | | ps]; cbn [is_object] in O; try tauto.
  assert (Present : forall y, get (VObj ps) k = y -> y <> VUndefined ->
                              replace_assoc k y ps = ps).
  { intros y G Y. apply replace_assoc_same. cbn [get] in G.
    destruct (assoc k ps); congruence. }
  destruct p as [| k' p].
  - cbn [assign set_key]. rewrite lookup_cons in L. cbn [lookup fold_left] in L.
    rewrite (Present x L X). reflexivity.
  - destruct (assign_sub _ _ _ _ T) as [Ts [Os Es]].
    rewrite lookup_cons in L.
    assert (N : nullish (get (VObj ps) k) = false).
    { destruct (nullish (get (VObj ps) k)) eqn:N; [| reflexivity].
      rewrite lookup_cons, (get_nullish _ _ N), lookup_undefined in L. congruence. }
    rewrite assign_cons2. rewrite (Es N) in *.
    rewrite (IH x (get (VObj ps) k)); auto; [| discriminate].
    cbn [set_key]. rewrite (Present _ eq_refl); [reflexivity |].
    intros U. rewrite U in N. discriminate.
Qed.

Lemma paths_trichotomy (p : list string) :
  forall q,
    continues p q
    \/ (exists r, r <> [] /\ p = q ++ r)
    \/ (exists c a p' b q', a <> b /\ p = c ++ a :: p' /\ q = c ++ b :: q').
Proof.
  induction p as [| a p IH]; intros q.
  - left. exists q. reflexivity.
  - destruct q as [| b q].
    + right. left. exists (a :: p). split; [discriminate | reflexivity].
    + destruct (string_dec a b) as [<- | N].
      * destruct (IH q) as [[r E] | [[r [NE E]] | [c [x [p' [y [q' [N [E1 E2]]]]]]]]].
        -- left. exists r. rewrite E. reflexivity.
        -- right. left. exists r. split; [exact NE | rewrite E; reflexivity].
        -- right. right. exists (a :: c), x, p', y, q'.
           split; [exact N |]. rewrite E1, E2. split; reflexivity.
      * right. right. exists [], a, p, b, q. auto.
Qed.

Lemma through_objects_prefix_object (q : list string) :
  forall r v,
    r <> [] -> through_objects (q ++ r) v -> nullish (lookup q v) = false ->
    is_object (lookup q v).
Proof.
  induction q as [| k q IH]; intros r v NE T N.
  - destruct r; [congruence | exact (through_objects_object _ _ _ T)].
  - assert (exists k' p', q ++ r = k' :: p') as [k' [p' E]].
    { destruct q; cbn [app]; [destruct r; [congruence | eauto] | eauto]. }
    cbn [app] in T. rewrite E in T. rewrite lookup_cons in *.
    destruct (through_objects_step _ _ _ _ T) as [Nk | T'].
    + rewrite (lookup_of_nullish q _ Nk) in N. discriminate.
    + rewrite <- E in T'. apply (IH r); auto.
Qed.

Lemma through_objects_suffix (q : list string) :
  forall r v ps,
    through_objects (q ++ r) v -> lookup q v = VObj ps -> through_objects r (VObj ps).
Proof.
  induction q as [| k q IH]; intros r v ps T L.
  - cbn in L. subst v. exact T.
  - destruct r as [| kr r]; [exact I |].
    assert (exists k' p', q ++ kr :: r = k' :: p') as [k' [p' E]]
      by (destruct q; cbn [app]; eauto).
    cbn [app] in T. rewrite E in T. rewrite lookup_cons in L.
    destruct (through_objects_step _ _ _ _ T) as [Nk | T'].
    + pose proof (lookup_of_nullish q _ Nk) as C. rewrite L in C. discriminate.
    + rewrite <- E in T'. apply (IH _ _ _ T' L).
Qed.

Lemma exists_in_prefix (q r : list string) (v : value) :
  exists_in (q ++ r) v -> nullish (lookup q v) = false.
Proof.
  unfold exists_in. rewrite lookup_app. intros H.
  destruct (nullish (lookup q v)) eqn:N; [| reflexivity].
  rewrite (lookup_of_nullish r _ N) in H. discriminate.
Qed.

(** ** Inclusion *)

Lemma agrees_get (n item : value) (k : string) :
  agrees n item -> agrees (get n k) (get item k).
Proof. intros A q. exact (A (k :: q)). Qed.

Lemma agrees_through (p : list string) :
  forall n item,
    agrees n item -> is_object n -> through_objects p item -> through_objects p n.
Proof.
  induction p as [| k p IH]; intros n item A O T; [exact I |].
  destruct p as [| k' p]; [destruct n; cbn in *; tauto |].
  apply through_objects_make; [exact O |].
  destruct (A [ k ]) as [U | [E | [On Oi]]]; cbn [lookup fold_left] in *.
  - left. rewrite U. reflexivity.
  - rewrite E. destruct (through_objects_step _ _ _ _ T) as [N | T']; [left; exact N |].
    right. apply (IH (get item k) (get item k)); auto.
    + intros q. right. left. reflexivity.
    + exact (through_objects_object _ _ _ T').
  - right. destruct (through_objects_step _ _ _ _ T) as [N | T'].
    + rewrite (is_object_not_nullish _ Oi) in N. discriminate.
    + apply (IH _ (get item k)); auto. apply agrees_get, A.
Qed.

Lemma agrees_assign (p : list string) (n item : value) :
  p <> [] -> is_object n -> agrees n item ->
  through_objects p item -> exists_in p item ->
  agrees (assign p (lookup p item) n) item.
Proof.
  intros NE O A T X q.
  pose proof (agrees_through p n item A O T) as Tn.
  destruct (paths_trichotomy p q)
    as [[r E] | [[r [Nr E]] | [c [a [p' [b [q' [N [E1 E2]]]]]]]]].
  - right. left. subst q. rewrite lookup_assign_under by assumption.
    rewrite lookup_app. reflexivity.
  - right. right. subst p. split.
    + apply lookup_assign_above_object; assumption.
    + apply (through_objects_prefix_object q r); auto.
      apply (exists_in_prefix q r), X.
  - subst p q. rewrite lookup_assign_other by assumption. apply A.
Qed.

(** The walk that tests whether the path exists finds what is at the path. *)
Lemma walk_lookup (p : list string) :
  forall v,
    through_objects p v ->
    nullish (walk p v) = nullish (lookup p v)
    /\ (nullish (lookup p v) = false -> walk p v = lookup p v).
Proof.
  unfold walk.
  induction p as [| k p IH]; intros v T; [split; reflexivity |].
  pose proof (through_objects_object _ _ _ T) as O.
  cbn [fold_left]. rewrite (is_object_truthy _ O). rewrite lookup_cons.
  destruct p as [| k' p]; [split; reflexivity |].
  destruct (through_objects_step _ _ _ _ T) as [N | T']; [| apply IH, T'].
  assert (F : truthy (get v k) = false)
    by (destruct (get v k); try discriminate; reflexivity).
  assert (W : forall l, fold_left (fun obj pathElem =>
                                     if truthy obj then get obj pathElem else obj)
                                  l (get v k) = get v k).
  { induction l as [| j l IHl]; [reflexivity |]. cbn [fold_left]. rewrite F. exact IHl. }
  rewrite W, N, (lookup_of_nullish _ _ N). split; [reflexivity | discriminate].
Qed.

(** The walk "into the path" copies the value at the path. *)
Lemma copy_path_assign (p : list string) :
  forall from to,
    p <> [] -> through_objects p from -> exists_in p from -> through_objects p to ->
    copy_path p from to = Ok (assign p (lookup p from) to).
Proof.
  induction p as [| k p IH]; intros from to NE Tf X Tt; [congruence |].
  pose proof (through_objects_object _ _ _ Tf) as Of.
  pose proof (through_objects_object _ _ _ Tt) as Ot.
  destruct to as [| | | | | | ps]; cbn [is_object] in Ot; try tauto.
  destruct p as [| k' p].
  - cbn [copy_path]. unfold get_prop. rewrite (is_object_not_nullish _ Of).
    reflexivity.
  - destruct (assign_sub _ _ _ _ Tt) as [Ts [Os Es]].
    rewrite assign_cons2.
    change (copy_path (k :: k' :: p) from (VObj ps))
      with (let sub := if truthy (get (VObj ps) k) then get (VObj ps) k else VObj [] in
            to' <- set_prop (VObj ps) k sub ;;
            from' <- get_prop from k ;;
            sub' <- copy_path (k' :: p) from' sub ;;
            Ok (put_back to' k sub')).
    cbv zeta. cbn [set_prop bind]. unfold get_prop.
    rewrite (is_object_not_nullish _ Of). cbn [bind].
    assert (Nk : nullish (get from k) = false).
    { apply (exists_in_prefix [ k ] (k' :: p)), X. }
    destruct (through_objects_step _ _ _ _ Tf) as [N | Tf']; [congruence |].
    rewrite (IH (get from k) _); auto; [| discriminate].
    cbn [bind put_back set_key]. rewrite update_replace_assoc. reflexivity.
Qed.

Lemma split_on_nonempty (sep : ascii) (s : string) : split_on sep s <> [].
Proof.
  destruct s as [| c s]; cbn [split_on]; [discriminate |].
  destruct (Ascii.eqb c sep); [discriminate |].
  destruct (split_on sep s); discriminate.
Qed.

Lemma include_field_assign (item n : value) (f : string) :
  is_object n -> agrees n item -> through_objects (split_dot f) item ->
  include_field item n f
  = Ok (if nullish (lookup (split_dot f) item) then n
        else assign (split_dot f) (lookup (split_dot f) item) n).
Proof.
  intros O A T. unfold include_field.
  destruct (walk_lookup _ _ T) as [W _]. rewrite W.
  destruct (nullish (lookup (split_dot f) item)) eqn:N; [reflexivity |].
  apply copy_path_assign; auto.
  - apply split_on_nonempty.
  - eapply agrees_through; eauto.
Qed.

Section Inclusion.
Variable item : value.
Hypothesis item_object : is_object item.

Lemma include_step (p : list string) (n : value) (done : list (list string)) :
  p <> [] -> is_object n -> agrees n item -> through_objects p item ->
  has_paths item n done -> only_paths item n done ->
  let n' := if nullish (lookup p item) then n else assign p (lookup p item) n in
  is_object n' /\ agrees n' item
  /\ has_paths item n' (p :: done) /\ only_paths item n' (p :: done).
Proof.
  intros NE O A T H Only n'. unfold n'.
  destruct (nullish (lookup p item)) eqn:X.
  - split; [exact O |]. split; [exact A |]. split.
    + intros p' [<- | I'] X'; [unfold exists_in in X'; congruence | apply H; auto].
    + intros q Q. destruct (Only q Q) as [E | [p' [I' [X' B]]]]; [left; exact E |].
      right. exists p'. split; [right; exact I' | auto].
  - pose proof (agrees_through p n item A O T) as Tn.
    split; [apply assign_object, O |].
    split; [apply agrees_assign; assumption |]. split.
    + intros p' [<- | I'] X'.
      * rewrite <- (app_nil_r p) at 1. rewrite lookup_assign_under by assumption.
        reflexivity.
      * destruct (paths_trichotomy p p')
          as [[r E] | [[r [Nr E]] | [c [a [p1 [b [q1 [N [E1 E2]]]]]]]]].
        -- subst p'. rewrite lookup_assign_under by assumption.
           rewrite lookup_app. reflexivity.
        -- subst p.
           assert (Oi : is_object (lookup p' item))
             by (apply (through_objects_prefix_object p' r); auto).
           destruct (lookup p' item) as [| | | | | | ps] eqn:Li;
             cbn [is_object] in Oi; try tauto.
           pose proof (H p' I' X') as Ln. rewrite Li in Ln.
           rewrite (lookup_assign_above p' r _ n ps Nr Tn Ln).
           apply assign_same.
           ++ exact Nr.
           ++ apply (through_objects_suffix p' r item ps T Li).
           ++ rewrite <- Li, <- lookup_app. reflexivity.
           ++ intros U. unfold exists_in in X. rewrite U in X. discriminate.
        -- subst p p'. rewrite lookup_assign_other by assumption. apply H; auto.
    + intros q Q.
      destruct (paths_trichotomy p q)
        as [[r E] | [[r [Nr E]] | [c [a [p1 [b [q1 [N [E1 E2]]]]]]]]].
      * right. exists p. split; [left; reflexivity |]. split; [exact X |].
        left. exists r. exact E.
      * right. exists p. split; [left; reflexivity |]. split; [exact X |].
        right. exists r. exact E.
      * subst p q. rewrite lookup_assign_other in Q by assumption.
        destruct (Only _ Q) as [E | [p' [I' [X' B]]]]; [left; exact E |].
        right. exists p'. split; [right; exact I' | auto].
Qed.

Lemma include_fold (fs : list string) :
  forall n done,
    is_object n -> agrees n item ->
    (forall f, In f fs -> through_objects (split_dot f) item) ->
    has_paths item n done -> only_paths item n done ->
    exists out,
      foldM (include_field item) fs n = Ok out
      /\ is_object out /\ agrees out item
      /\ has_paths item out (map split_dot fs ++ done)
      /\ only_paths item out (map split_dot fs ++ done).
Proof.
  induction fs as [| f fs IH]; intros n done O A T H Only.
  - exists n. cbn [foldM map app]. auto.
  - cbn [foldM].
    rewrite (include_field_assign item n f O A (T f (or_introl eq_refl))).
    cbn [bind].
    destruct (include_step (split_dot f) n done (split_on_nonempty _ _) O A
                           (T f (or_introl eq_refl)) H Only)
      as [O' [A' [H' Only']]].
    destruct (IH _ (split_dot f :: done) O' A'
                 (fun g Hg => T g (or_intror Hg)) H' Only')
      as [out [E [Oo [Ao [Ho Onlyo]]]]].
    exists out. split; [exact E |]. split; [exact Oo |]. split; [exact Ao |].
    split.
    + intros p I'. apply Ho. cbn [map app] in I'.
      apply in_app_iff. destruct I' as [<- | I'].
      * right. left. reflexivity.
      * apply in_app_iff in I'. destruct I' as [I' | I']; [left | right; right]; exact I'.
    + intros q Q. destruct (Onlyo q Q) as [E' | [p [I' [X B]]]]; [left; exact E' |].
      right. exists p. split; [| auto]. cbn [map app].
      apply in_app_iff in I'. destruct I' as [I' | [<- | I']].
      * right. apply in_app_iff. left. exact I'.
      * left. reflexivity.
      * right. apply in_app_iff. right. exact I'.
Qed.

(** In inclusion mode the new item has the listed paths that exist in the
    item, and the id, as the item has them, and nothing else. *)
Lemma include_item_paths (fields : value) :
  (forall p, In p (listed fields ++ [ [ "_id" ] ]) -> through_objects p item) ->
  exists out,
    include_item fields item = Ok out
    /\ is_object out
    /\ agrees out item
    /\ has_paths item out (listed fields ++ [ [ "_id" ] ])
    /\ only_paths item out (listed fields ++ [ [ "_id" ] ]).
Proof.
  intros T. unfold include_item.
  assert (E : map split_dot (keys fields ++ [ "_id" ]) = listed fields ++ [ [ "_id" ] ])
    by (rewrite map_app; reflexivity).
  destruct (include_fold (keys fields ++ [ "_id" ]) (VObj []) []) as [out [Eo [O [A [H Only]]]]].
  - exact I.
  - intros [| k q]; [right; right; split; [exact I | exact item_object] |].
    left. apply lookup_empty_object.
  - intros f Hf. apply T. rewrite <- E. apply in_map. exact Hf.
  - intros p [].
  - intros [| k q] Q; [left; reflexivity |].
    rewrite lookup_empty_object in Q. congruence.
  - rewrite app_nil_r, E in *. exists out. auto.
Qed.
End Inclusion.

(** ** Exclusion *)

Lemma assoc_remove_same (k : string) (ps : list (string * value)) :
  assoc k (remove_assoc k ps) = None.
Proof.
  induction ps as [| [j v] r IH]; cbn [remove_assoc assoc]; [reflexivity |].
  destruct (String.eqb k j) eqn:E; [exact IH |]. cbn [assoc]. rewrite E. exact IH.
Qed.

Lemma assoc_remove_other (k k' : string) (ps : list (string * value)) :
  k <> k' -> assoc k' (remove_assoc k ps) = assoc k' ps.
Proof.
  intros N. induction ps as [| [j v] r IH]; cbn [remove_assoc assoc]; [reflexivity |].
  destruct (String.eqb k j) eqn:E.
  - apply String.eqb_eq in E; subst j.
    destruct (String.eqb k' k) eqn:E'; [apply String.eqb_eq in E'; congruence | exact IH].
  - cbn [assoc]. rewrite IH. reflexivity.
Qed.

Lemma assoc_update_same (k : string) (x y : value) (ps : list (string * value)) :
  assoc k ps = Some y -> assoc k (update_assoc k x ps) = Some x.
Proof.
  induction ps as [| [j v] r IH]; cbn [update_assoc assoc]; [discriminate |].
  destruct (String.eqb k j) eqn:E; cbn [assoc].
  - rewrite String.eqb_refl. reflexivity.
  - rewrite E. exact IH.
Qed.

Lemma assoc_update_other (k k' : string) (x : value) (ps : list (string * value)) :
  k <> k' -> assoc k' (update_assoc k x ps) = assoc k' ps.
Proof.
  intros N. induction ps as [| [j v] r IH]; cbn [update_assoc assoc]; [reflexivity |].
  destruct (String.eqb k j) eqn:E; cbn [assoc].
  - apply String.eqb_eq in E; subst j.
    destruct (String.eqb k' k) eqn:E'; [apply String.eqb_eq in E'; congruence | reflexivity].
  - rewrite IH. reflexivity.
Qed.

Lemma update_assoc_get (k : string) (ps : list (string * value)) :
  update_assoc k (get (VObj ps) k) ps = ps.
Proof.
  cbn [get]. induction ps as [| [j v] r IH]; cbn [update_assoc assoc]; [reflexivity |].
  destruct (String.eqb k j) eqn:E.
  - apply String.eqb_eq in E; subst j. reflexivity.
  - rewrite IH. reflexivity.
Qed.

(** The property [k] of an object from which a path was removed. *)
Lemma get_remove (a : string) (p : list string) (o : value) (k : string) :
  is_object o ->
  get (remove (a :: p) o) k
  = if String.eqb a k then
      match p with
      | [] => VUndefined
      | _ => match get o a with
             | VObj _ => remove p (get o a)
             | _ => get o a
             end
      end
    else get o k.
Proof.
  destruct o as [| | | | | | ps]; cbn [is_object]; try tauto. intros _.
  destruct (String.eqb a k) eqn:E.
  - apply String.eqb_eq in E; subst k. destruct p as [| k' p].
    + cbn [remove delete_key get]. rewrite assoc_remove_same. reflexivity.
    + cbn [remove]. destruct (get (VObj ps) a) eqn:G; try (rewrite G; reflexivity).
      cbn [put_back get]. cbn [get] in G.
      destruct (assoc a ps) as [y |] eqn:Ea; [| discriminate].
      rewrite (assoc_update_same _ _ _ _ Ea). reflexivity.
  - assert (N : a <> k) by (intros ->; rewrite String.eqb_refl in E; discriminate).
    destruct p as [| k' p].
    + cbn [remove delete_key get]. rewrite assoc_remove_other by exact N. reflexivity.
    + cbn [remove]. destruct (get (VObj ps) a); try reflexivity.
      cbn [put_back get]. rewrite assoc_update_other by exact N. reflexivity.
Qed.

Lemma remove_object (p : list string) (o : value) : is_object o -> is_object (remove p o).
Proof.
  destruct o as [| | | | | | ps]; cbn [is_object]; try tauto. intros _.
  destruct p as [| k [| k' p]]; cbn [remove delete_key]; try exact I.
  destruct (get (VObj ps) k); exact I.
Qed.

Lemma remove_nullish (p : list string) (v : value) : nullish v = true -> remove p v = v.
Proof.
  intros N. destruct v; try discriminate; destruct p as [| k [| k' p]]; reflexivity.
Qed.

Lemma lookup_remove_under (p : list string) :
  forall r o,
    p <> [] -> through_objects p o -> lookup (p ++ r) (remove p o) = VUndefined.
Proof.
  induction p as [| k p IH]; intros r o NE T; [congruence |].
  pose proof (through_objects_object _ _ _ T) as O.
  cbn [app]. rewrite lookup_cons, get_remove by exact O. rewrite String.eqb_refl.
  destruct p as [| k' p]; [apply lookup_undefined |].
  destruct (through_objects_step _ _ _ _ T) as [N | T'].
  - assert (E : match get o k with
                | VObj _ => remove (k' :: p) (get o k)
                | _ => get o k
                end = get o k) by (destruct (get o k); try reflexivity; discriminate).
    rewrite E. cbn [app]. rewrite lookup_cons, (get_nullish _ _ N). apply lookup_undefined.
  - pose proof (through_objects_object _ _ _ T') as O'.
    destruct (get o k) eqn:G; cbn [is_object] in O'; try tauto.
    rewrite <- G in *. apply IH; [discriminate | exact T'].
Qed.

Lemma lookup_remove_other (c : list string) :
  forall a p b q o,
    a <> b -> through_objects (c ++ a :: p) o ->
    lookup (c ++ b :: q) (remove (c ++ a :: p) o) = lookup (c ++ b :: q) o.
Proof.
  induction c as [| k c IH]; intros a p b q o N T.
  - cbn [app] in *. pose proof (through_objects_object _ _ _ T) as O.
    rewrite !lookup_cons, get_remove by exact O.
    destruct (String.eqb a b) eqn:E; [apply String.eqb_eq in E; congruence | reflexivity].
  - assert (exists k' p', c ++ a :: p = k' :: p') as [k' [p' E]]
      by (destruct c; cbn; eauto).
    cbn [app] in *. rewrite E in *.
    pose proof (through_objects_object _ _ _ T) as O.
    rewrite !lookup_cons, get_remove by exact O. rewrite String.eqb_refl.
    destruct (through_objects_step _ _ _ _ T) as [Nk | T'].
    + destruct (get o k); try reflexivity; discriminate.
    + pose proof (through_objects_object _ _ _ T') as O'.
      destruct (get o k) eqn:G; cbn [is_object] in O'; try tauto.
      rewrite <- G, <- E in *. apply IH; assumption.
Qed.

Lemma lookup_remove_above (q : list string) :
  forall r o,
    r <> [] -> through_objects (q ++ r) o ->
    lookup q (remove (q ++ r) o) = remove r (lookup q o).
Proof.
  induction q as [| k q IH]; intros r o NE T; [reflexivity |].
  assert (exists k' p', q ++ r = k' :: p') as [k' [p' E]].
  { destruct q; cbn [app]; [destruct r; [congruence | eauto] | eauto]. }
  cbn [app] in *. rewrite E in *.
  pose proof (through_objects_object _ _ _ T) as O.
  rewrite !lookup_cons, get_remove by exact O. rewrite String.eqb_refl.
  destruct (through_objects_step _ _ _ _ T) as [Nk | T'].
  - assert (G : match get o k with
                | VObj _ => remove (k' :: p') (get o k)
                | _ => get o k
                end = get o k) by (destruct (get o k); try reflexivity; discriminate).
    rewrite G. symmetry. apply remove_nullish, lookup_of_nullish, Nk.
  - pose proof (through_objects_object _ _ _ T') as O'.
    destruct (get o k) eqn:G; cbn [is_object] in O'; try tauto.
    rewrite <- G, <- E in *. apply IH; assumption.
Qed.

(** Removing a path keeps the other paths running through objects. *)
Lemma through_objects_remove (q : list string) :
  forall p o,
    through_objects q o -> through_objects p o -> through_objects q (remove p o).
Proof.
  induction q as [| k q IH]; intros p o Tq Tp; [exact I |].
  pose proof (through_objects_object _ _ _ Tq) as O.
  destruct q as [| k' q].
  - pose proof (remove_object p o O) as O'.
    destruct (remove p o); cbn in *; tauto.
  - apply through_objects_make; [apply remove_object, O |].
    destruct p as [| a p]; [exact (through_objects_step _ _ _ _ Tq) |].
    rewrite get_remove by exact O.
    destruct (String.eqb a k) eqn:E; [| exact (through_objects_step _ _ _ _ Tq)].
    apply String.eqb_eq in E; subst a.
    destruct p as [| a' p]; [left; reflexivity |].
    destruct (through_objects_step _ _ _ _ Tq) as [N | Tq'].
    + left. destruct (get o k); try discriminate; reflexivity.
    + pose proof (through_objects_object _ _ _ Tq') as O'.
      destruct (get o k) eqn:G; cbn [is_object] in O'; try tauto.
      rewrite <- G in *. right. apply IH; [exact Tq' |].
      destruct (through_objects_step _ _ _ _ Tp) as [N | Tp']; [| exact Tp'].
      rewrite G in N. discriminate.
Qed.

Lemma delete_path_nullish (p : list string) (v : value) :
  nullish v = true -> delete_path p v = Ok v.
Proof.
  intros N. destruct p as [| k [| k' p]]; cbn [delete_path]; [reflexivity | |].
  - rewrite N. reflexivity.
  - assert (F : truthy v = false) by (destruct v; try discriminate; reflexivity).
    rewrite F, N. reflexivity.
Qed.

(** The walk "inside the path" and the deletion remove the path. *)
Lemma delete_path_remove (p : list string) :
  forall obj, through_objects p obj -> delete_path p obj = Ok (remove p obj).
Proof.
  induction p as [| k p IH]; intros obj T; [reflexivity |].
  pose proof (through_objects_object _ _ _ T) as O.
  destruct obj as [| | | | | | ps]; cbn [is_object] in O; try tauto.
  destruct p as [| k' p]; [reflexivity |].
  change (delete_path (k :: k' :: p) (VObj ps))
    with (sub' <- delete_path (k' :: p) (get (VObj ps) k) ;;
          Ok (put_back (VObj ps) k sub')).
  destruct (through_objects_step _ _ _ _ T) as [N | T'].
  - rewrite (delete_path_nullish _ _ N). cbn [bind put_back remove].
    rewrite update_assoc_get.
    destruct (get (VObj ps) k); try reflexivity; discriminate.
  - rewrite (IH _ T'). cbn [bind remove].
    pose proof (through_objects_object _ _ _ T') as O'.
    destruct (get (VObj ps) k); cbn [is_object] in O'; try tauto; reflexivity.
Qed.

Section Exclusion.
Variable c : value.

Lemma exclude_step (p : list string) (n : value) (done : list (list string)) :
  p <> [] -> through_objects p n ->
  gone_paths n done -> kept_paths c n done ->
  gone_paths (remove p n) (p :: done) /\ kept_paths c (remove p n) (p :: done).
Proof.
  intros NE T G K. split.
  - intros p' [<- | I'] r; [apply lookup_remove_under; assumption |].
    destruct (paths_trichotomy p (p' ++ r))
      as [[r' E] | [[r' [Nr E]] | [c0 [a [p1 [b [q1 [N [E1 E2]]]]]]]]].
    + rewrite E. apply lookup_remove_under; assumption.
    + rewrite E in T |- *. rewrite lookup_remove_above by assumption.
      rewrite (G p' I' r). apply remove_nullish. reflexivity.
    + rewrite E2. rewrite E1 in T |- *. rewrite lookup_remove_other by assumption.
      rewrite <- E2. apply G, I'.
  - intros q Q.
    destruct (paths_trichotomy p q)
      as [[r' E] | [[r' [Nr E]] | [c0 [a [p1 [b [q1 [N [E1 E2]]]]]]]]].
    + exfalso. apply (Q p (or_introl eq_refl)). left. exists r'. exact E.
    + exfalso. apply (Q p (or_introl eq_refl)). right. exists r'. exact E.
    + rewrite E2. rewrite E1 in T |- *. rewrite lookup_remove_other by assumption.
      rewrite <- E2. apply K. intros p' I'. apply Q. right. exact I'.
Qed.

Lemma exclude_fold (fs : list string) :
  forall n done,
    (forall f, In f fs -> through_objects (split_dot f) n) ->
    gone_paths n done -> kept_paths c n done ->
    is_object n ->
    exists out,
      foldM exclude_field fs n = Ok out
      /\ is_object out
      /\ gone_paths out (map split_dot fs ++ done)
      /\ kept_paths c out (map split_dot fs ++ done).
Proof.
  induction fs as [| f fs IH]; intros n done T G K O.
  - exists n. cbn [foldM map app]. auto.
  - cbn [foldM]. unfold exclude_field at 1.
    rewrite (delete_path_remove _ _ (T f (or_introl eq_refl))). cbn [bind].
    destruct (exclude_step (split_dot f) n done (split_on_nonempty _ _)
                           (T f (or_introl eq_refl)) G K) as [G' K'].
    destruct (IH (remove (split_dot f) n) (split_dot f :: done)) as [out [E [Oo [Go Ko]]]].
    + intros g Hg. apply through_objects_remove; apply T; [right | left]; auto.
    + exact G'.
    + exact K'.
    + apply remove_object, O.
    + exists out. split; [exact E |]. split; [exact Oo |]. split.
      * intros p I'. apply Go. cbn [map app] in I'. apply in_app_iff.
        destruct I' as [<- | I']; [right; left; reflexivity |].
        apply in_app_iff in I'. destruct I' as [I' | I']; [left | right; right]; exact I'.
      * intros q Q. apply Ko. intros p I'. apply Q. cbn [map app].
        apply in_app_iff in I'. destruct I' as [I' | [<- | I']].
        -- right. apply in_app_iff. left. exact I'.
        -- left. reflexivity.
        -- right. apply in_app_iff. right. exact I'.
Qed.
End Exclusion.

(** In exclusion mode the new item is the copy of the item without the
    listed paths. *)
Lemma exclude_item_paths (fields item c : value) :
  json_clone item = Ok c -> is_object c ->
  (forall p, In p (listed fields) -> through_objects p c) ->
  exists out,
    exclude_item fields item = Ok out
    /\ is_object out
    /\ gone_paths out (listed fields)
    /\ kept_paths c out (listed fields).
Proof.
  intros J O T. unfold exclude_item. rewrite J. cbn [bind].
  destruct (exclude_fold c (keys fields) c []) as [out [E [Oo [G K]]]].
  - intros f Hf. apply T. apply in_map. exact Hf.
  - intros p [].
  - intros q _. reflexivity.
  - exact O.
  - fold (listed fields) in G, K. rewrite app_nil_r in G, K. exists out. auto.
Qed.

(** A value without [undefined] and [NaN] is its own copy. *)
Lemma json_copy_clean (v : value) : json_clean v -> json_copy v = Some v.
Proof.
  induction v as [| | b | n | s | l IH | ps IH] using value_ind;
    cbn [json_clean json_copy];
    try tauto; try reflexivity.
  - destruct n; [tauto | reflexivity].
  - intros C. do 2 f_equal. induction IH as [| x r Hx _ IHr]; [reflexivity |].
    destruct C as [Cx Cr]. cbn [map]. rewrite (Hx Cx), (IHr Cr). reflexivity.
  - intros C. do 2 f_equal. induction IH as [| [k x] r Hx _ IHr]; [reflexivity |].
    destruct C as [Cx Cr]. cbn [flat_map snd fst] in *.
    rewrite (Hx Cx), (IHr Cr). reflexivity.
Qed.

(** C4, as amended. Field projection, for a non-empty [fields]: it runs in
    inclusion mode exactly when the first listed value is the number 1, and
    in exclusion mode otherwise.  In inclusion mode, on an item in which the
    listed paths run through objects, the new item has the listed paths that
    exist in the item, and the id, with the values the item has there, and
    nothing off these paths.  In exclusion mode the new item is the JSON copy
    of the item, in which the listed paths run through objects, without the
    listed paths and with everything off them; an item without [undefined]
    and [NaN] is its own JSON copy. *)
Theorem filterFields_projection (items : list value) (fields first : value)
        (others : list value) :
  values fields = first :: others ->
  filterFields items fields
  = mapM (fun item =>
            if strict_eq first (VNum (num_of_Z 1)) then include_item fields item
            else exclude_item fields item) items
  /\ (forall item,
         is_object item ->
         (forall p, In p (listed fields ++ [ [ "_id" ] ]) -> through_objects p item) ->
         exists out,
           include_item fields item = Ok out
           /\ is_object out
           /\ has_paths item out (listed fields ++ [ [ "_id" ] ])
           /\ only_paths item out (listed fields ++ [ [ "_id" ] ])
           /\ agrees out item)
  /\ (forall item c,
         json_clone item = Ok c -> is_object c ->
         (forall p, In p (listed fields) -> through_objects p c) ->
         exists out,
           exclude_item fields item = Ok out
           /\ is_object out
           /\ gone_paths out (listed fields)
           /\ kept_paths c out (listed fields))
  /\ (forall item, json_clean item -> json_clone item = Ok item).
Proof.
  intros V. split; [| split; [| split]].
  - unfold filterFields.
    assert (U : is_undefined fields = false) by (destruct fields; try reflexivity; discriminate).
    rewrite U. unfold keys. rewrite length_map, <- (length_map snd).
    fold (values fields). rewrite V. reflexivity.
  - intros item O T.
    destruct (include_item_paths item O fields T) as [out [E [Oo [A [H Only]]]]].
    exists out. auto.
  - intros item c. apply exclude_item_paths.
  - intros item C. unfold json_clone. rewrite (json_copy_clean item C). reflexivity.
Qed.

Lemma filterFields_projection_witness :
  (exists out,
      filterFields [ Places.close ] Projections.typeOnly = Ok [ out ]
      /\ lookup [ "loc"; "type" ] out = VStr "Point"
      /\ lookup [ "_id" ] out = VStr "close")
  /\ (exists out,
         filterFields [ Places.close ] Projections.notAge = Ok [ out ]
         /\ lookup [ "age" ] out = VUndefined
         /\ lookup [ "loc" ] out = lookup [ "loc" ] Places.close).
Proof.
  split.
  - destruct (filterFields_projection [ Places.close ] Projections.typeOnly
                (Plane.num 1) [] eq_refl) as [M [Inc _]].
    destruct (Inc Places.close) as [out [E [_ [H _]]]].
    + exact I.
    + intros p [<- | [<- | []]]; [right |]; exact I.
    + exists out. split; [| split].
      * rewrite M. cbn [mapM]. change (strict_eq (Plane.num 1) (VNum (num_of_Z 1))) with true.
        cbv iota. rewrite E. reflexivity.
      * apply (H [ "loc"; "type" ]); [left | ]; reflexivity.
      * apply (H [ "_id" ]); [right; left | ]; reflexivity.
  - destruct (filterFields_projection [ Places.close ] Projections.notAge
                (Plane.num 0) [] eq_refl) as [M [_ [Exc Clean]]].
    destruct (Exc Places.close Places.close) as [out [E [_ [G K]]]].
    + apply Clean. cbn. tauto.
    + exact I.
    + intros p [<- | []]. exact I.
    + exists out. split; [| split].
      * rewrite M. cbn [mapM]. change (strict_eq (Plane.num 0) (VNum (num_of_Z 1))) with false.
        cbv iota. rewrite E. reflexivity.
      * apply (G [ "age" ] (or_introl eq_refl) []).
      * apply K. intros p [<- | []] [[r B] | [r B]]; discriminate B.
Defined.

(** With [true] as the first listed value the projection excludes: the
    listed field is removed and the other fields are kept.  And in inclusion
    mode a path that is missing below the number 0 is not skipped: the
    projection throws. *)
Lemma projection_true_excludes :
  (truthy (VBool true) = true
   /\ filterFields [ Places.close ] Projections.ageTrue
      = Ok [ VObj [ ("_id", VStr "close"); ("loc", Plane.point 0 (9 # 10000)) ] ])
  /\ (lookup [ "a"; "b"; "c" ] Projections.shallow = VUndefined
      /\ filterFields [ Projections.shallow ] Projections.deep = Err TypeError).
Proof. repeat split; reflexivity. Qed.

(* ================================================================== *)
(** * Further properties *)

(** ** [regularizeUpsert] on what it returns *)

Lemma make_items_args (ups : list upsert_item) :
  forall pre,
    make_items (map doc ups) (VArr (pre ++ map base ups)) (List.length pre) = Ok ups.
Proof.
  induction ups as [| [d b] r IH]; intros pre; [reflexivity |].
  cbn [map make_items doc base]. rewrite base_at_array, nth_middle. cbn [bind].
  replace (pre ++ b :: map base r) with ((pre ++ [ b ]) ++ map base r)
    by (rewrite <- app_assoc; reflexivity).
  replace (S (List.length pre)) with (List.length (pre ++ [ b ]))
    by (rewrite length_app; cbn; lia).
  rewrite IH. reflexivity.
Qed.

Lemma object_of_id (v : value) : truthy (get v "_id") = true -> is_object v.
Proof. destruct v; cbn; try discriminate; auto. Qed.

Lemma hex_digits_nonempty (fuel : nat) :
  forall n acc, acc <> EmptyString -> hex_digits fuel n acc <> EmptyString.
Proof.
  induction fuel as [| f IH]; intros n acc H; cbn [hex_digits]; [exact H |].
  destruct (n <? 16)%Z; [discriminate | apply IH; discriminate].
Qed.

Lemma toString16_nonempty (v : Z) : toString16 v <> EmptyString.
Proof.
  unfold toString16. destruct (v <? 0)%Z; [discriminate |].
  cbn [hex_digits]. destruct (v <? 16)%Z; [discriminate |].
  apply hex_digits_nonempty. discriminate.
Qed.

Section UpsertAgain.
Variable random : nat -> Qc.

Lemma replace_xy_x (rest : string) (n : nat) :
  fst (replace_xy random (String "x" rest) n)
  = String.append (uid_char random "x" n) (fst (replace_xy random rest (S n))).
Proof.
  cbn [replace_xy]. change (Ascii.eqb "x" "x" || Ascii.eqb "x" "y") with true.
  cbv iota. destruct (replace_xy random rest (S n)). reflexivity.
Qed.

Lemma createUid_truthy (n : nat) : truthy (VStr (fst (createUid random n))) = true.
Proof.
  unfold createUid, uid_pattern.
  match goal with
  | |- context [replace_xy random (String "x" ?r) n] => rewrite (replace_xy_x r n)
  end.
  pose proof (toString16_nonempty
                (to_int32 (num_mul (Num (random n)) (num_of_Z 16)))) as H.
  unfold uid_char. change (Ascii.eqb "x" "x") with true. cbv iota.
  destruct (toString16 _); [congruence | reflexivity].
Qed.

Lemma check_item_well_paired (it : upsert_item) (n : nat) :
  well_paired it -> check_item random it n = Ok (it, n).
Proof.
  destruct it as [d b]. unfold well_paired. cbn [doc base].
  intros [O [T B]]. unfold check_item, get_prop. cbn [doc base].
  rewrite (is_object_not_nullish _ O). cbn [bind]. rewrite T. cbn [bind].
  destruct B as [F | [Tb E]].
  - rewrite F. reflexivity.
  - rewrite Tb, E. destruct (truthy b); reflexivity.
Qed.

Lemma check_items_well_paired (items : list upsert_item) (n : nat) :
  Forall well_paired items -> check_items random items n = Ok (items, n).
Proof.
  induction 1 as [| it r H _ IH]; [reflexivity |].
  cbn [check_items]. rewrite (check_item_well_paired it n H). cbn [bind snd fst].
  rewrite IH. reflexivity.
Qed.

Lemma regularizeUpsert_args (ups : list upsert_item) (success error : arg) (n : nat) :
  Forall well_paired ups ->
  regularizeUpsert random (VArr (map doc ups)) (Val (VArr (map base ups)))
                   success error n
  = Ok (ups, success, error, n).
Proof.
  intros W. unfold regularizeUpsert. cbn [isFunction truthy].
  pose proof (make_items_args ups []) as M. cbn [app List.length] in M.
  rewrite M. cbn [bind].
  rewrite (check_items_well_paired ups n W). reflexivity.
Qed.

Lemma settled_well_paired (it o : upsert_item) : settled random it o -> well_paired o.
Proof.
  intros [_ [Keep [Made Base]]]. unfold well_paired.
  destruct (truthy (get (doc it) "_id")) eqn:T.
  - rewrite (Keep eq_refl). split; [apply object_of_id, T |]. split; [exact T |].
    rewrite <- (Keep eq_refl). exact Base.
  - destruct (Made eq_refl) as [k E].
    pose proof (get_set_object _ _ _ E) as G.
    split; [| split; [| exact Base]].
    + revert E. destruct (doc it); cbn [set_prop]; try discriminate.
      intros E. inversion E. exact I.
    + rewrite G. apply createUid_truthy.
Qed.

(** X1. What [cloneLocalCollection] passes to [upsert], the documents and
    the bases of the pending upserts as two arrays, [regularizeUpsert] puts
    together again: it returns the pending upserts as they are, and draws no
    random number, when each of them has a document that is an object with
    an id and a base that is missing or has the same id. *)
Theorem upsert_args_round_trip (ups : list upsert_item) (success error : arg) (n : nat) :
  Forall well_paired ups ->
  regularizeUpsert random (fst (upsert_args ups)) (Val (snd (upsert_args ups)))
                   success error n
  = Ok (ups, success, error, n).
Proof. intros W. apply regularizeUpsert_args, W. Qed.

(** X2. [regularizeUpsert] is idempotent: given the documents and the bases
    of the items it has returned, it returns the same items, and draws no
    random number. *)
Theorem regularizeUpsert_idempotent (docs : value) (bases success error : arg)
        (n : nat) items s e n' :
  regularizeUpsert random docs bases success error n = Ok (items, s, e, n') ->
  regularizeUpsert random (VArr (map doc items)) (Val (VArr (map base items))) s e n'
  = Ok (items, s, e, n').
Proof.
  intros H. apply regularizeUpsert_args.
  destruct (regularizeUpsert_ok random _ _ _ _ _ _ _ _ _ H) as [paired [b [_ [_ F]]]].
  clear H. induction F as [| it o r r' S _ IH]; constructor; [| exact IH].
  exact (settled_well_paired it o S).
Qed.
End UpsertAgain.

Lemma upsert_args_round_trip_witness :
  regularizeUpsert Sample.half
                   (VArr [ doc Pending.changed; doc Pending.created ])
                   (Val (VArr [ base Pending.changed; base Pending.created ]))
                   (Fn "success") (Fn "error") 7
  = Ok ([ Pending.changed; Pending.created ], Fn "success", Fn "error", 7).
Proof.
  apply (upsert_args_round_trip Sample.half [ Pending.changed; Pending.created ]).
  constructor; [| constructor; [| constructor ]].
  - split; [exact I |]. split; [reflexivity |]. right. split; reflexivity.
  - split; [exact I |]. split; [reflexivity |]. left. reflexivity.
Defined.

Lemma regularizeUpsert_idempotent_witness :
  exists items n',
    regularizeUpsert Sample.half Sample.newDoc (Fn "success") (Fn "error")
                     (Val VUndefined) 0
    = Ok (items, Fn "success", Fn "error", n')
    /\ regularizeUpsert Sample.half (VArr (map doc items)) (Val (VArr (map base items)))
                        (Fn "success") (Fn "error") n'
       = Ok (items, Fn "success", Fn "error", n').
Proof.
  eexists. eexists. split; [vm_compute; reflexivity |].
  apply (regularizeUpsert_idempotent Sample.half Sample.newDoc (Fn "success")
           (Fn "error") (Val VUndefined) 0).
  vm_compute. reflexivity.
Defined.

(** ** [regularizeUpsert] without bases, and without a document *)

Section UpsertEdges.
Variable random : nat -> Qc.

Lemma check_item_no_base (it : upsert_item) (n : nat) :
  is_object (doc it) -> truthy (base it) = false ->
  exists o n', check_item random it n = Ok (o, n') /\ base o = base it.
Proof.
  destruct it as [d b]. cbn [doc base]. intros O F.
  destruct d as [| | | | | | ps]; cbn [is_object] in O; try tauto.
  unfold check_item, get_prop. cbn [doc base nullish bind].
  destruct (truthy (get (VObj ps) "_id")).
  - cbn [bind]. rewrite F. cbn [andb]. eauto.
  - destruct (createUid random n) as [uid m]. cbn [set_prop bind].
    rewrite F. cbn [andb]. eauto.
Qed.

Lemma check_items_no_base (items : list upsert_item) :
  Forall (fun it => is_object (doc it) /\ truthy (base it) = false) items ->
  forall n, exists out n',
      check_items random items n = Ok (out, n')
      /\ List.length out = List.length items
      /\ Forall (fun o => truthy (base o) = false) out.
Proof.
  induction 1 as [| it r [O F] _ IH]; intros n.
  - exists [], n. repeat split; constructor.
  - destruct (check_item_no_base it n O F) as [o [m [E B]]].
    destruct (IH m) as [out [m' [E' [L Fo]]]].
    exists (o :: out), m'. cbn [check_items]. rewrite E. cbn [bind snd fst].
    rewrite E'. cbn [bind fst snd]. split; [reflexivity |].
    split; [cbn; rewrite L; reflexivity |].
    constructor; [rewrite B; exact F | exact Fo].
Qed.

Lemma no_bases_fit (docs : value) (bases : arg) : no_bases bases -> bases_fit docs bases.
Proof.
  unfold no_bases, bases_fit. destruct docs, bases; auto.
Qed.

Lemma no_bases_list (docs : value) (bases : arg) :
  no_bases bases -> Forall (fun b => truthy b = false) (bases_list docs bases).
Proof.
  unfold no_bases, bases_list. intros H.
  destruct bases as [f | b].
  - destruct docs; repeat constructor.
  - destruct docs; try (repeat constructor; exact H).
    destruct b; try discriminate; constructor.
Qed.

(** X3. Without bases, that is with the success callback in their place
    or with a falsy value, [regularizeUpsert] does not throw on documents
    that are objects: it returns one item for each document, none of them
    with a base, and, when the callback stands in the place of the bases,
    it returns that callback as [success] and the next argument as
    [error]. *)
Theorem regularizeUpsert_without_bases (docs : value) (bases success error : arg)
        (n : nat) :
  no_bases bases ->
  Forall is_object (upsert_docs docs) ->
  exists items n',
    regularizeUpsert random docs bases success error n
    = Ok (items, (if isFunction bases then bases else success),
          (if isFunction bases then success else error), n')
    /\ List.length items = List.length (upsert_docs docs)
    /\ Forall (fun it => truthy (base it) = false) items.
Proof.
  intros NB O.
  destruct (regularizeUpsert_steps random docs bases success error n) as [b [E Hb]].
  rewrite (Hb (no_bases_fit docs bases NB)) in E.
  destruct (make_items_array (bases_list docs bases) (upsert_docs docs) 0)
    as [paired [Ep [Hd Hbase]]].
  rewrite Ep in E. cbn [bind] in E.
  assert (P : Forall (fun it => is_object (doc it) /\ truthy (base it) = false) paired).
  { apply Forall_forall. intros it Hit.
    destruct (In_nth_error _ _ Hit) as [j Ej]. split.
    - rewrite <- Hd in O. rewrite Forall_map in O. rewrite Forall_forall in O.
      apply O, Hit.
    - rewrite (Hbase j it Ej). cbn [Nat.add].
      pose proof (no_bases_list docs bases NB) as Fb. rewrite Forall_forall in Fb.
      destruct (Nat.lt_ge_cases j (List.length (bases_list docs bases))) as [Lt | Ge].
      + apply Fb, nth_In, Lt.
      + rewrite nth_overflow by exact Ge. reflexivity. }
  destruct (check_items_no_base paired P n) as [out [m [Ec [L Fo]]]].
  exists out, m. rewrite E, Ec. cbn [bind fst snd]. split; [reflexivity |].
  split; [| exact Fo]. rewrite L, <- Hd. symmetry. apply length_map.
Qed.

(** X4. A document that is [undefined] or [null], alone or first in the
    array of the documents, makes [regularizeUpsert] throw a [TypeError]. *)
Theorem regularizeUpsert_of_nothing (d : value) (others : list value)
        (docs : value) (bases success error : arg) (n : nat) :
  nullish d = true ->
  docs = d \/ (docs = VArr (d :: others) /\ bases_fit docs bases) ->
  regularizeUpsert random docs bases success error n = Err TypeError.
Proof.
  intros N D.
  assert (First : forall b rest m,
             check_items random ({| doc := d; base := b |} :: rest) m = Err TypeError).
  { intros b rest m. cbn [check_items]. unfold check_item, get_prop. cbn [doc].
    rewrite N. reflexivity. }
  destruct D as [-> | [-> Fit]].
  - unfold regularizeUpsert.
    destruct d; try discriminate N; destruct bases as [f | b0];
      cbn [isFunction]; cbv beta iota zeta; cbn [make_items];
      rewrite base_at_array; cbn [bind]; rewrite First; reflexivity.
  - destruct (regularizeUpsert_steps random (VArr (d :: others)) bases success error n)
      as [b [E Hb]].
    rewrite E, (Hb Fit). cbn [upsert_docs].
    destruct (make_items_array (bases_list (VArr (d :: others)) bases) (d :: others) 0)
      as [paired [Ep [Hd _]]].
    rewrite Ep. cbn [bind].
    destruct paired as [| [d0 b0] rest]; [discriminate Hd |].
    cbn [map doc] in Hd. inversion Hd; subst d0. rewrite First. reflexivity.
Qed.
End UpsertEdges.

Lemma regularizeUpsert_without_bases_witness :
  exists items n',
    regularizeUpsert Sample.half (VArr [ Sample.newDoc; Sample.docA ])
                     (Fn "done") (Fn "failed") (Val VUndefined) 0
    = Ok (items, Fn "done", Fn "failed", n')
    /\ List.length items = 2
    /\ Forall (fun it => truthy (base it) = false) items.
Proof.
  apply (regularizeUpsert_without_bases Sample.half
           (VArr [ Sample.newDoc; Sample.docA ]) (Fn "done") (Fn "failed")
           (Val VUndefined) 0).
  - exact I.
  - repeat constructor.
Defined.

Lemma regularizeUpsert_of_nothing_witness :
  regularizeUpsert Sample.half VNull (Val VUndefined) (Fn "done") (Fn "failed") 0
  = Err TypeError.
Proof.
  apply (regularizeUpsert_of_nothing Sample.half VNull [] VNull).
  - reflexivity.
  - left. reflexivity.
Defined.

(** ** Lists taken from lists *)

Lemma filterM_filter {A} (f : A -> result bool) (l l' : list A) :
  filterM f l = Ok l' -> l' = filter (passes f) l.
Proof.
  revert l'. induction l as [| x r IH]; intros l' H; cbn [filterM] in H.
  - inversion H. reflexivity.
  - apply bind_ok in H. destruct H as [b [Eb H]].
    apply bind_ok in H. destruct H as [ys [Ey H]].
    inversion H; subst l'. cbn [filter]. unfold passes at 1. rewrite Eb.
    rewrite <- (IH ys Ey). destruct b; reflexivity.
Qed.

Lemma mapM_length {A B} (f : A -> result B) (l : list A) (l' : list B) :
  mapM f l = Ok l' -> List.length l' = List.length l.
Proof.
  revert l'. induction l as [| x r IH]; intros l' H; cbn [mapM] in H.
  - inversion H. reflexivity.
  - apply bind_ok in H. destruct H as [y [_ H]].
    apply bind_ok in H. destruct H as [ys [Ey H]].
    inversion H; subst l'. cbn [List.length]. rewrite (IH ys Ey). reflexivity.
Qed.

Lemma mapM_first_err {A B} (f : A -> result B) (l1 l2 : list A) (x : A) (e : error) :
  (forall y, In y l1 -> exists r, f y = Ok r) ->
  f x = Err e ->
  mapM f (l1 ++ x :: l2) = Err e.
Proof.
  intros H1 Hx. induction l1 as [| y r IH]; cbn [app mapM].
  - rewrite Hx. reflexivity.
  - destruct (H1 y (or_introl eq_refl)) as [v Ev]. rewrite Ev. cbn [bind].
    rewrite IH by (intros z Hz; apply H1; right; exact Hz). reflexivity.
Qed.

Lemma taken_from_refl {A} (l : list A) : taken_from l l.
Proof. exists []. rewrite app_nil_r. reflexivity. Qed.

Lemma taken_from_perm {A} (out l : list A) : Permutation out l -> taken_from out l.
Proof. intros H. exists []. rewrite app_nil_r. exact H. Qed.

Lemma taken_from_trans {A} (a b c : list A) :
  taken_from a b -> taken_from b c -> taken_from a c.
Proof.
  intros [r1 H1] [r2 H2]. exists (r1 ++ r2). rewrite app_assoc.
  rewrite <- H2. apply Permutation_app_tail. exact H1.
Qed.

Lemma taken_from_filter {A} (f : A -> bool) (l : list A) : taken_from (filter f l) l.
Proof.
  exists (filter (fun x => negb (f x)) l).
  rewrite Permutation_app_comm. apply filter_partition_perm.
Qed.

Lemma taken_from_firstn {A} (n : nat) (l : list A) : taken_from (firstn n l) l.
Proof. exists (skipn n l). rewrite firstn_skipn. reflexivity. Qed.

Lemma taken_from_skipn {A} (n : nat) (l : list A) : taken_from (skipn n l) l.
Proof.
  exists (firstn n l). rewrite Permutation_app_comm, firstn_skipn. reflexivity.
Qed.

Lemma taken_from_map {A B} (f : A -> B) (a b : list A) :
  taken_from a b -> taken_from (map f a) (map f b).
Proof.
  intros [r H]. exists (map f r). rewrite <- map_app. apply Permutation_map, H.
Qed.

Lemma taken_from_length {A} (a b : list A) :
  taken_from a b -> List.length a <= List.length b.
Proof.
  intros [r H]. rewrite <- (Permutation_length H), length_app. lia.
Qed.

Lemma taken_from_In {A} (a b : list A) (x : A) : taken_from a b -> In x a -> In x b.
Proof.
  intros [r H] Hx. eapply Permutation_in; [exact H |]. apply in_or_app. left. exact Hx.
Qed.

(** ** The [$near] stage on every selector *)

Section NearAgain.
Variable lib : imports.

Lemma near_items_docs (geo : value) (key : string) (docs : list value)
      (ds : list near_item) :
  mapM (fun d => x <- getDistance lib geo (get d key) ;;
                 Ok {| n_doc := d; n_distance := x |}) docs = Ok ds ->
  map n_doc ds = docs.
Proof.
  revert ds. induction docs as [| d r IH]; intros ds H; cbn [mapM] in H.
  - inversion H. reflexivity.
  - apply bind_ok in H. destruct H as [y [Ey H]].
    apply bind_ok in H. destruct H as [ys [Eys H]].
    inversion H; subst ds. cbn [map]. rewrite (IH ys Eys).
    apply bind_ok in Ey. destruct Ey as [x [_ Ey]]. inversion Ey. reflexivity.
Qed.

Lemma near_step_takes (key : string) (near geo : value) (docs out : list value) :
  near_step lib key near geo docs = Ok out -> taken_from out docs.
Proof.
  unfold near_step. intros H.
  apply bind_ok in H. destruct H as [docs1 [E1 H]].
  apply bind_ok in H. destruct H as [ds [E2 H]].
  apply bind_ok in H. destruct H as [ds' [E3 H]].
  inversion H; subst out. clear H.
  apply filterM_filter in E1. apply near_items_docs in E2.
  apply taken_from_trans with (b := docs1);
    [| rewrite E1; apply taken_from_filter].
  rewrite <- E2. apply taken_from_map.
  set (kept := filter (fun it => num_geb (n_distance it) (num_of_Z 0)) ds) in *.
  assert (S : taken_from (sortBy n_distance kept) ds).
  { apply taken_from_trans with (b := kept);
      [apply taken_from_perm, sortBy_perm | apply taken_from_filter]. }
  destruct (truthy (get near "$maxDistance")).
  - apply filterM_filter in E3. rewrite E3.
    eapply taken_from_trans; [apply taken_from_filter | exact S].
  - inversion E3; subst ds'. exact S.
Qed.

Lemma near_loop_takes (sel : list (string * value)) :
  forall docs out, near_loop lib sel docs = Ok out -> taken_from out docs.
Proof.
  induction sel as [| [key val] rest IH]; intros docs out H; cbn [near_loop] in H.
  - inversion H. apply taken_from_refl.
  - destruct (negb (nullish val) && truthy (get val "$near")); [| exact (IH _ _ H)].
    apply bind_ok in H. destruct H as [t [_ H]].
    destruct (negb (strict_eq t (VStr "Point"))).
    + inversion H. apply taken_from_refl.
    + apply bind_ok in H. destruct H as [docs1 [E1 H]].
      eapply taken_from_trans; [exact (IH _ _ H) |].
      eapply near_step_takes. exact E1.
Qed.

(** X5. Whatever the selector, a [$near] stage that returns has returned
    documents of its input, none more often than the input has it: it
    removes and reorders, and adds nothing. *)
Theorem processNearOperator_takes (selector : value) (docs out : list value) :
  processNearOperator lib selector docs = Ok out -> taken_from out docs.
Proof. apply near_loop_takes. Qed.

Lemma near_stage_eq (selector : value) (pre post : list (string * value))
      (key : string) (cond : value) (docs : list value)
      (distance_of : value -> number) :
  entries selector = pre ++ (key, cond) :: post ->
  Forall (fun kv => carries "$near" (snd kv) = false) (pre ++ post) ->
  carries "$near" cond = true ->
  nullish (get (get cond "$near") "$geometry") = false ->
  strict_eq (get (get (get cond "$near") "$geometry") "type") (VStr "Point") = true ->
  max_distance_fits (get cond "$near") ->
  (forall d, In d docs -> nullish d = false) ->
  (forall d, In d docs -> point_or_line key d = true ->
             getDistance lib (get (get cond "$near") "$geometry") (get d key)
             = Ok (distance_of d)) ->
  processNearOperator lib selector docs
  = Ok (filter (fun d => within_max (get cond "$near") (distance_of d))
          (sortBy distance_of
             (filter (fun d => num_geb (distance_of d) (num_of_Z 0))
                (filter (point_or_line key) docs)))).
Proof.
  intros Hsel Hothers Hcond Hgeo Hpoint Hmax Hdocs Hdist.
  apply Forall_app in Hothers. destruct Hothers as [Hpre Hpost].
  unfold processNearOperator. rewrite Hsel, near_loop_skip by exact Hpre.
  cbn [near_loop]. unfold carries in Hcond. rewrite Hcond.
  unfold get_prop. rewrite Hgeo. cbn [bind]. rewrite Hpoint. cbn [negb].
  rewrite (near_step_eq lib key _ _ docs distance_of Hdocs Hdist Hmax).
  cbn [bind]. apply near_loop_done. exact Hpost.
Qed.

Lemma filter_comm {A} (f g : A -> bool) (l : list A) :
  filter f (filter g l) = filter g (filter f l).
Proof.
  rewrite !filter_filter. apply filter_ext. intros x. apply andb_comm.
Qed.

Lemma ties_in_order (distance_of : value -> number) (x : number) (a b : value) :
  at_distance distance_of x a = true ->
  at_distance distance_of x b = true ->
  (compareAscending (distance_of a) (distance_of b) <=? 0)%Z = true.
Proof.
  unfold at_distance, num_eqb, compareAscending.
  destruct (distance_of a) as [| p], (distance_of b) as [| q], x as [| r];
    try discriminate.
  intros Ha Hb. apply Qeq_bool_iff in Ha. apply Qeq_bool_iff in Hb.
  assert (L1 : Qle_bool p q = true) by (apply Qle_bool_iff; rewrite Ha, Hb; apply Qle_refl).
  assert (L2 : Qle_bool q p = true) by (apply Qle_bool_iff; rewrite Ha, Hb; apply Qle_refl).
  rewrite L1, L2. reflexivity.
Qed.

(** X6. The [$near] stage breaks ties by the order of its input: under the
    conditions of the stage (one [$near] with a [Point] geometry, a
    [$maxDistance] that is left out or is a number other than 0), the
    documents it returns at any one distance are in the order in which the
    input has them. *)
Theorem near_ties_keep_order (selector : value) (pre post : list (string * value))
        (key : string) (cond : value) (docs : list value)
        (distance_of : value -> number) :
  entries selector = pre ++ (key, cond) :: post ->
  Forall (fun kv => carries "$near" (snd kv) = false) (pre ++ post) ->
  carries "$near" cond = true ->
  nullish (get (get cond "$near") "$geometry") = false ->
  strict_eq (get (get (get cond "$near") "$geometry") "type") (VStr "Point") = true ->
  max_distance_fits (get cond "$near") ->
  (forall d, In d docs -> nullish d = false) ->
  (forall d, In d docs -> point_or_line key d = true ->
             getDistance lib (get (get cond "$near") "$geometry") (get d key)
             = Ok (distance_of d)) ->
  exists out,
    processNearOperator lib selector docs = Ok out
    /\ forall x,
        filter (at_distance distance_of x) out
        = filter (at_distance distance_of x)
            (filter (near_keeps key (get cond "$near") distance_of) docs).
Proof.
  intros Hsel Hothers Hcond Hgeo Hpoint Hmax Hdocs Hdist.
  eexists. split.
  - exact (near_stage_eq selector pre post key cond docs distance_of
             Hsel Hothers Hcond Hgeo Hpoint Hmax Hdocs Hdist).
  - intros x. rewrite filter_comm. unfold sortBy.
    rewrite (stable_sort_stable _ (at_distance distance_of x))
      by (intros a b; apply ties_in_order).
    rewrite filter_comm. f_equal. rewrite !filter_filter. apply filter_ext.
    intros d. unfold near_keeps. destruct (point_or_line key d); reflexivity.
Qed.

(** X7. A call of turf that throws stops the [$near] stage: when the
    distance of a document with a [Point] or a [LineString] in the field
    cannot be computed, and the distances of such documents before it can,
    the stage throws what [getDistance] throws on that document, whatever
    the rest of the selector and of the documents. *)
Theorem near_distance_throws (selector : value) (pre post : list (string * value))
        (key : string) (cond : value) (before after : list value) (d : value)
        (e : error) :
  entries selector = pre ++ (key, cond) :: post ->
  Forall (fun kv => carries "$near" (snd kv) = false) pre ->
  carries "$near" cond = true ->
  nullish (get (get cond "$near") "$geometry") = false ->
  strict_eq (get (get (get cond "$near") "$geometry") "type") (VStr "Point") = true ->
  (forall x, In x (before ++ d :: after) -> nullish x = false) ->
  (forall x, In x before -> point_or_line key x = true ->
             exists r, getDistance lib (get (get cond "$near") "$geometry") (get x key)
                       = Ok r) ->
  point_or_line key d = true ->
  getDistance lib (get (get cond "$near") "$geometry") (get d key) = Err e ->
  processNearOperator lib selector (before ++ d :: after) = Err e.
Proof.
  intros Hsel Hpre Hcond Hgeo Hpoint Hdocs Hbefore Hd He.
  unfold processNearOperator. rewrite Hsel, near_loop_skip by exact Hpre.
  cbn [near_loop]. unfold carries in Hcond. rewrite Hcond.
  unfold get_prop at 1. rewrite Hgeo. cbn [bind]. rewrite Hpoint. cbn [negb].
  unfold near_step.
  rewrite (filterM_pure _ (point_or_line key))
    by (intros x Hx; apply is_point_or_line_pure, Hdocs, Hx).
  cbn [bind]. rewrite filter_app. cbn [filter]. rewrite Hd.
  rewrite mapM_first_err with (e := e); [reflexivity | | rewrite He; reflexivity].
  intros y Hy. apply filter_In in Hy. destruct Hy as [Hy Py].
  destruct (Hbefore y Hy Py) as [r Er]. rewrite Er. cbn [bind]. eauto.
Qed.
End NearAgain.

Lemma processNearOperator_takes_witness :
  taken_from [ Places.close ] [ Places.far; Places.close ].
Proof.
  apply (processNearOperator_takes Plane.lib (Places.nearOriginWithin 1000)).
  vm_compute. reflexivity.
Defined.

Lemma near_ties_keep_order_witness :
  exists out,
    processNearOperator Plane.lib Places.nearOrigin
                        [ Places.far; Ties.north; Ties.east ] = Ok out
    /\ forall x,
        filter (at_distance Places.from_origin x) out
        = filter (at_distance Places.from_origin x)
            (filter (near_keeps "loc" (VObj [ ("$geometry", Places.origin) ])
                                Places.from_origin)
                    [ Places.far; Ties.north; Ties.east ]).
Proof.
  apply (near_ties_keep_order Plane.lib Places.nearOrigin [] [] "loc"
           (VObj [ ("$near", VObj [ ("$geometry", Places.origin) ]) ])
           [ Places.far; Ties.north; Ties.east ] Places.from_origin).
  - reflexivity.
  - constructor.
  - reflexivity.
  - reflexivity.
  - reflexivity.
  - left. reflexivity.
  - intros d [<- | [<- | [<- | []]]]; reflexivity.
  - intros d [<- | [<- | [<- | []]]] _; reflexivity.
Defined.

Lemma near_distance_throws_witness :
  processNearOperator Plane.lib Places.nearOrigin
                      [ Places.close; Ties.nowhere; Places.far ]
  = Err (External "distance").
Proof.
  apply (near_distance_throws Plane.lib Places.nearOrigin [] [] "loc"
           (VObj [ ("$near", VObj [ ("$geometry", Places.origin) ]) ])
           [ Places.close ] [ Places.far ] Ties.nowhere (External "distance")).
  - reflexivity.
  - constructor.
  - reflexivity.
  - reflexivity.
  - reflexivity.
  - intros d [<- | [<- | [<- | []]]]; reflexivity.
  - intros d [<- | []] _. eexists. reflexivity.
  - reflexivity.
  - reflexivity.
Defined.

(** ** The [$geoIntersects] stage on every selector *)

Section GeoAgain.
Variable lib : imports.

Lemma geo_loop_filter (sel : list (string * value)) :
  exists keep, forall docs out,
      geo_loop lib sel docs = Ok out -> out = filter keep docs.
Proof.
  induction sel as [| [key val] rest [keep IH]].
  - exists (fun _ => true). intros docs out H. inversion H.
    symmetry. apply forallb_filter_id. apply forallb_forall. reflexivity.
  - cbn [geo_loop].
    destruct (negb (nullish val) && truthy (get val "$geoIntersects"));
      [| exists keep; exact IH].
    set (geo := get (get val "$geoIntersects") "$geometry").
    destruct (get_prop geo "type") as [t | e]; cbn [bind].
    + destruct (negb (strict_eq t (VStr "Polygon"))).
      * exists (fun _ => true). intros docs out H. inversion H.
        symmetry. apply forallb_filter_id. apply forallb_forall. reflexivity.
      * exists (fun d => passes (intersects lib key geo) d && keep d).
        intros docs out H. apply bind_ok in H. destruct H as [docs1 [E1 H]].
        apply filterM_filter in E1. rewrite (IH _ _ H), E1. apply filter_filter.
    + exists (fun _ => true). discriminate.
Qed.

(** X8. The [$geoIntersects] stage is a filter: for every selector there is
    a test of one document such that the stage, on every list of documents
    on which it returns, returns the documents that pass the test, in the
    order of the list. *)
Theorem processGeoIntersectsOperator_filters (selector : value) :
  exists keep, forall docs out,
      processGeoIntersectsOperator lib selector docs = Ok out ->
      out = filter keep docs.
Proof. apply geo_loop_filter. Qed.

Lemma intersects_tested (key : string) (geo d : value) :
  intersects lib key geo d = Ok true ->
  truthy (get d key) = true
  /\ exists t, In t tested_types /\ has_type (get d key) t.
Proof.
  unfold intersects, get_prop. destruct (nullish d); [discriminate |]. cbn [bind].
  destruct (truthy (get d key)); cbn [negb]; [| discriminate].
  intros H. split; [reflexivity |]. unfold has_type, tested_types.
  destruct (strict_eq (get (get d key) "type") (VStr "Point")) eqn:E1;
    [apply strict_eq_eq in E1; exists "Point"; split; [cbn; tauto | assumption] |].
  destruct (strict_eq (get (get d key) "type") (VStr "Polygon")) eqn:E2;
    [apply strict_eq_eq in E2; exists "Polygon"; split; [cbn; tauto | assumption] |].
  destruct (strict_eq (get (get d key) "type") (VStr "MultiPolygon")) eqn:E3;
    [apply strict_eq_eq in E3; exists "MultiPolygon"; split; [cbn; tauto | assumption] |].
  cbn [orb] in H.
  destruct (strict_eq (get (get d key) "type") (VStr "LineString")) eqn:E4;
    [apply strict_eq_eq in E4; exists "LineString"; split; [cbn; tauto | assumption] |].
  destruct (strict_eq (get (get d key) "type") (VStr "MultiLineString")) eqn:E5;
    [apply strict_eq_eq in E5; exists "MultiLineString"; split; [cbn; tauto | assumption] |].
  discriminate H.
Qed.

(** X9. With a [Polygon] geometry in the first [$geoIntersects] of the
    selector, every document that the stage returns is a document of the
    input with, in the field of the operator, a truthy value whose type is
    [Point], [Polygon], [MultiPolygon], [LineString] or [MultiLineString]:
    documents without the field, and documents with another geometry in it,
    are dropped without an error. *)
Theorem geoIntersects_tested_types (selector : value) (pre post : list (string * value))
        (key : string) (cond : value) (docs out : list value) :
  entries selector = pre ++ (key, cond) :: post ->
  Forall (fun kv => carries "$geoIntersects" (snd kv) = false) pre ->
  carries "$geoIntersects" cond = true ->
  strict_eq (get (get (get cond "$geoIntersects") "$geometry") "type") (VStr "Polygon")
  = true ->
  processGeoIntersectsOperator lib selector docs = Ok out ->
  Forall (fun d => In d docs
                   /\ truthy (get d key) = true
                   /\ exists t, In t tested_types /\ has_type (get d key) t) out.
Proof.
  intros Hsel Hpre Hcond Hpoly H.
  unfold processGeoIntersectsOperator in H.
  rewrite Hsel, geo_loop_skip in H by exact Hpre.
  cbn [geo_loop] in H. unfold carries in Hcond. rewrite Hcond in H.
  apply bind_ok in H. destruct H as [t [Et H]].
  unfold get_prop in Et.
  destruct (nullish (get (get cond "$geoIntersects") "$geometry")); [discriminate |].
  inversion Et; subst t. rewrite Hpoly in H. cbn [negb] in H.
  apply bind_ok in H. destruct H as [docs1 [E1 H]].
  destruct (geo_loop_filter post) as [keep K]. rewrite (K _ _ H).
  apply Forall_forall. intros d Hd. apply filter_In in Hd. destruct Hd as [Hd _].
  destruct (filterM_ok _ _ _ E1 d Hd) as [Hin Ht]. split; [exact Hin |].
  eapply intersects_tested. exact Ht.
Qed.
End GeoAgain.

Lemma processGeoIntersectsOperator_filters_witness :
  exists keep,
    processGeoIntersectsOperator Plane.lib (Plane.geoIntersects Shapes.square)
                                 [ Found.noPlace; Found.lines; Found.circle ]
    = Ok [ Found.lines ]
    /\ [ Found.lines ] = filter keep [ Found.noPlace; Found.lines; Found.circle ].
Proof.
  destruct (processGeoIntersectsOperator_filters
              Plane.lib (Plane.geoIntersects Shapes.square)) as [keep K].
  exists keep. split; [vm_compute; reflexivity |].
  apply K. vm_compute. reflexivity.
Defined.

Lemma geoIntersects_tested_types_witness :
  Forall (fun d => In d [ Found.noPlace; Found.lines; Found.circle ]
                   /\ truthy (get d "loc") = true
                   /\ exists t, In t tested_types /\ has_type (get d "loc") t)
         [ Found.lines ].
Proof.
  apply (geoIntersects_tested_types Plane.lib (Plane.geoIntersects Shapes.square)
           [] [] "loc"
           (VObj [ ("$geoIntersects", VObj [ ("$geometry", Shapes.square) ]) ])
           [ Found.noPlace; Found.lines; Found.circle ] [ Found.lines ]).
  - reflexivity.
  - constructor.
  - reflexivity.
  - reflexivity.
  - vm_compute. reflexivity.
Defined.

(** ** [processFind] as a whole *)

Lemma ext_ok {A} (callee : string) (r : option A) (a : A) :
  ext callee r = Ok a -> r = Some a.
Proof. destruct r; cbn [ext]; intros H; inversion H; reflexivity. Qed.

Lemma filterFields_length (items out : list value) (fields : value) :
  filterFields items fields = Ok out -> List.length out = List.length items.
Proof.
  unfold filterFields.
  destruct (Nat.eqb (List.length (keys (if is_undefined fields then VObj [] else fields))) 0).
  - intros H. inversion H. reflexivity.
  - apply mapM_length.
Qed.

Lemma slice_from_skipn (start : Z) (l : list value) : exists n, slice_from start l = skipn n l.
Proof. unfold slice_from. eexists. reflexivity. Qed.

Lemma take_length (n : Z) (l : list value) :
  (Z.of_nat (List.length (take n l)) <= Z.max 0 n)%Z.
Proof.
  unfold take. destruct (n <? 0)%Z eqn:E.
  - apply Z.ltb_lt in E. change (Z.to_nat 0) with 0%nat. cbn [firstn List.length]. lia.
  - apply Z.ltb_ge in E. pose proof (firstn_le_length (Z.to_nat n) l) as L. lia.
Qed.

Section FindAgain.
Variable lib : imports.

(** The stages of a call that returns. *)
Lemma processFind_inv (items : list value) (selector options : value) (out : list value) :
  processFind lib items selector options = Ok out ->
  exists pred l1 l2 l3 l4 l5,
    compileDocumentSelector lib selector = Some pred
    /\ processNearOperator lib selector (filter pred items) = Ok l1
    /\ processGeoIntersectsOperator lib selector l1 = Ok l2
    /\ Permutation l3 l2
    /\ (exists n, l4 = skipn n l3)
    /\ (if truthy options && truthy (get options "limit")
        then exists n, toInteger_value (get options "limit") = Ok n /\ l5 = take n l4
        else l5 = l4)
    /\ (if truthy options && truthy (get options "fields")
        then filterFields l5 (get options "fields") = Ok out
        else out = l5).
Proof.
  unfold processFind. intros H.
  apply bind_ok in H. destruct H as [pred [Ep H]]. apply ext_ok in Ep.
  cbv zeta in H.
  apply bind_ok in H. destruct H as [l1 [E1 H]].
  apply bind_ok in H. destruct H as [l2 [E2 H]].
  apply bind_ok in H. destruct H as [l3 [E3 H]].
  apply bind_ok in H. destruct H as [l4 [E4 H]].
  apply bind_ok in H. destruct H as [l5 [E5 H]].
  exists pred, l1, l2, l3, l4, l5.
  split; [exact Ep |]. split; [exact E1 |]. split; [exact E2 |].
  split; [| split; [| split]].
  - destruct (truthy options && truthy (get options "sort")).
    + apply bind_ok in E3. destruct E3 as [cmp [_ E3]]. inversion E3.
      apply js_sort_perm.
    + inversion E3. reflexivity.
  - destruct (truthy options && truthy (get options "skip")).
    + apply bind_ok in E4. destruct E4 as [start [_ E4]]. inversion E4.
      apply slice_from_skipn.
    + inversion E4. exists 0. reflexivity.
  - destruct (truthy options && truthy (get options "limit")).
    + apply bind_ok in E5. destruct E5 as [n [En E5]]. inversion E5.
      exists n. split; [exact En | reflexivity].
    + inversion E5. reflexivity.
  - destruct (truthy options && truthy (get options "fields")).
    + exact H.
    + inversion H. reflexivity.
Qed.

Lemma geo_stage_takes (selector : value) (docs out : list value) :
  processGeoIntersectsOperator lib selector docs = Ok out -> taken_from out docs.
Proof.
  intros H. destruct (geo_loop_filter lib (entries selector)) as [keep K].
  rewrite (K _ _ H). apply taken_from_filter.
Qed.

(** X10. What [processFind] returns is taken from the documents that match
    the compiled selector: there are documents [chosen] among those of
    [items] that the selector accepts, none chosen more often than [items]
    has it, such that the result is [chosen], or the projection of [chosen]
    when [options.fields] is set. *)
Theorem processFind_takes (items : list value) (selector options : value)
        (out : list value) :
  processFind lib items selector options = Ok out ->
  exists pred chosen,
    compileDocumentSelector lib selector = Some pred
    /\ taken_from chosen (filter pred items)
    /\ (if truthy options && truthy (get options "fields")
        then filterFields chosen (get options "fields") = Ok out
        else out = chosen).
Proof.
  intros H.
  destruct (processFind_inv items selector options out H)
    as [pred [l1 [l2 [l3 [l4 [l5 [Ep [E1 [E2 [P3 [[n E4] [E5 E6]]]]]]]]]]]].
  exists pred, l5. split; [exact Ep |]. split; [| exact E6].
  assert (T4 : taken_from l4 (filter pred items)).
  { subst l4. eapply taken_from_trans; [apply taken_from_skipn |].
    eapply taken_from_trans; [apply taken_from_perm, P3 |].
    eapply taken_from_trans; [eapply geo_stage_takes, E2 |].
    eapply near_loop_takes. exact E1. }
  destruct (truthy options && truthy (get options "limit")).
  - destruct E5 as [k [_ E5]]. subst l5. unfold take.
    eapply taken_from_trans; [apply taken_from_firstn | exact T4].
  - subst l5. exact T4.
Qed.

(** X11. A limit is kept: with [options.limit] a number other than 0, a
    call of [processFind] that returns has returned at most that many
    documents, the number truncated to an integer, and none when it is
    negative; the projection of the fields does not change the count. *)
Theorem processFind_limit (items : list value) (selector options : value)
        (m : number) (out : list value) :
  truthy options = true ->
  get options "limit" = VNum m ->
  truthy (VNum m) = true ->
  processFind lib items selector options = Ok out ->
  (Z.of_nat (List.length out) <= Z.max 0 (toInteger m))%Z.
Proof.
  intros To Lm Tm H.
  destruct (processFind_inv items selector options out H)
    as [pred [l1 [l2 [l3 [l4 [l5 [_ [_ [_ [_ [_ [E5 E6]]]]]]]]]]]].
  rewrite To, Lm, Tm in E5. cbn [andb] in E5.
  destruct E5 as [n [En E5]]. cbn [toInteger_value to_number bind] in En.
  inversion En; subst n. clear En.
  assert (L : List.length out = List.length l5).
  { destruct (truthy options && truthy (get options "fields")).
    - eapply filterFields_length. exact E6.
    - subst out. reflexivity. }
  rewrite L, E5. apply take_length.
Qed.

Lemma geo_loop_done (sel : list (string * value)) (docs : list value) :
  Forall (fun kv => carries "$geoIntersects" (snd kv) = false) sel ->
  geo_loop lib sel docs = Ok docs.
Proof.
  intros H. rewrite <- (app_nil_r sel). rewrite geo_loop_skip by exact H.
  reflexivity.
Qed.

(** X12. A plain query: when no field of the selector carries [$near] or
    [$geoIntersects], and the options are missing or set none of [sort],
    [skip], [limit] and [fields] to a truthy value, [processFind] returns
    the documents that the compiled selector accepts, in the order of
    [items]; so a [limit] of 0 does not limit, and a [skip] of 0 does not
    skip. *)
Theorem processFind_plain (items : list value) (selector options : value)
        (pred : value -> bool) :
  compileDocumentSelector lib selector = Some pred ->
  Forall (fun kv => carries "$near" (snd kv) = false
                    /\ carries "$geoIntersects" (snd kv) = false)
         (entries selector) ->
  no_options options ->
  processFind lib items selector options = Ok (filter pred items).
Proof.
  intros Ep Hsel Hopt. unfold processFind. rewrite Ep. cbn [ext bind].
  unfold processNearOperator, processGeoIntersectsOperator.
  rewrite near_loop_done
    by (eapply Forall_impl; [| exact Hsel]; intros kv [N _]; exact N).
  cbn [bind].
  rewrite geo_loop_done
    by (eapply Forall_impl; [| exact Hsel]; intros kv [_ G]; exact G).
  cbn [bind].
  destruct Hopt as [F | [F1 [F2 [F3 F4]]]].
  - rewrite F. reflexivity.
  - rewrite F1, F2, F3, F4, !andb_false_r. reflexivity.
Qed.


End FindAgain.

Lemma processFind_takes_witness :
  exists pred chosen,
    compileDocumentSelector Plane.lib Places.nearOrigin = Some pred
    /\ taken_from chosen (filter pred [ Places.here; Places.close; Places.far ])
    /\ filterFields chosen (VObj [ ("age", Plane.num 1) ])
       = Ok [ VObj [ ("age", Plane.num 30); ("_id", VStr "close") ] ].
Proof.
  assert (E : processFind Plane.lib [ Places.here; Places.close; Places.far ]
                          Places.nearOrigin Asked.page
              = Ok [ VObj [ ("age", Plane.num 30); ("_id", VStr "close") ] ])
    by (vm_compute; reflexivity).
  exact (processFind_takes Plane.lib _ _ _ _ E).
Defined.

Lemma processFind_limit_witness :
  (Z.of_nat (List.length [ VObj [ ("age", Plane.num 30); ("_id", VStr "close") ] ]) <= 1)%Z.
Proof.
  apply (processFind_limit Plane.lib [ Places.here; Places.close; Places.far ]
           Places.nearOrigin Asked.page (num_of_Z 1)
           [ VObj [ ("age", Plane.num 30); ("_id", VStr "close") ] ]).
  - reflexivity.
  - reflexivity.
  - reflexivity.
  - vm_compute. reflexivity.
Defined.

Lemma processFind_plain_witness :
  exists pred,
    compileDocumentSelector Plane.lib (Asked.aged 30) = Some pred
    /\ processFind Plane.lib [ Places.here; Places.close; Places.far ]
                   (Asked.aged 30) Asked.unlimited
       = Ok (filter pred [ Places.here; Places.close; Places.far ])
    /\ filter pred [ Places.here; Places.close; Places.far ] = [ Places.close ].
Proof.
  eexists. split; [reflexivity |]. split.
  - apply (processFind_plain Plane.lib [ Places.here; Places.close; Places.far ]
             (Asked.aged 30) Asked.unlimited).
    + reflexivity.
    + repeat constructor.
    + right. repeat split; reflexivity.
  - vm_compute. reflexivity.
Defined.


(** ** Documents that the [$geoIntersects] stage does not test *)

Section Untested.
Variable lib : imports.

Lemma intersects_untested (key : string) (geo d : value) :
  untested key d -> intersects lib key geo d = Ok false.
Proof.
  intros [N U]. unfold intersects, get_prop. rewrite N. cbn [bind].
  destruct U as [F | T]; [rewrite F; reflexivity |].
  destruct (truthy (get d key)); [| reflexivity]. cbn [negb].
  unfold tested_types in T.
  inversion T as [| ? ? T1 T']; subst. inversion T' as [| ? ? T2 T'']; subst.
  inversion T'' as [| ? ? T3 T3']; subst. inversion T3' as [| ? ? T4 T4']; subst.
  inversion T4' as [| ? ? T5 _]; subst.
  rewrite T1, T2, T3, T4, T5. reflexivity.
Qed.

(** X14. Documents that the [$geoIntersects] stage does not test cost no
    call of turf: with a [Polygon] geometry in the one [$geoIntersects] of
    the selector, documents whose field is falsy or holds a geometry of
    another type than the five tested ones are all dropped, and the stage
    returns the empty list whatever the imported functions do, also when
    each of them would throw. *)
Theorem geoIntersects_drops_untested (selector : value)
        (pre post : list (string * value)) (key : string) (cond : value)
        (docs : list value) :
  entries selector = pre ++ (key, cond) :: post ->
  Forall (fun kv => carries "$geoIntersects" (snd kv) = false) (pre ++ post) ->
  carries "$geoIntersects" cond = true ->
  nullish (get (get cond "$geoIntersects") "$geometry") = false ->
  strict_eq (get (get (get cond "$geoIntersects") "$geometry") "type") (VStr "Polygon")
  = true ->
  Forall (untested key) docs ->
  processGeoIntersectsOperator lib selector docs = Ok [].
Proof.
  intros Hsel Hothers Hcond Hgeo Hpoly Hdocs.
  apply Forall_app in Hothers. destruct Hothers as [Hpre Hpost].
  unfold processGeoIntersectsOperator.
  rewrite Hsel, geo_loop_skip by exact Hpre.
  cbn [geo_loop]. unfold carries in Hcond. rewrite Hcond.
  unfold get_prop at 1. rewrite Hgeo. cbn [bind]. rewrite Hpoly. cbn [negb].
  rewrite (filterM_pure _ (fun _ => false)).
  - cbn [bind]. replace (filter (fun _ : value => false) docs) with (@nil value).
    + apply geo_loop_done. exact Hpost.
    + clear. induction docs as [| d r IH]; [reflexivity | exact IH].
  - intros d Hd. rewrite Forall_forall in Hdocs.
    apply intersects_untested, Hdocs, Hd.
Qed.
End Untested.

Lemma geoIntersects_drops_untested_witness :
  processGeoIntersectsOperator Broken.lib (Plane.geoIntersects Shapes.square)
                               [ Found.noPlace; Found.circle ]
  = Ok [].
Proof.
  apply (geoIntersects_drops_untested Broken.lib (Plane.geoIntersects Shapes.square)
           [] [] "loc"
           (VObj [ ("$geoIntersects", VObj [ ("$geometry", Shapes.square) ]) ])
           [ Found.noPlace; Found.circle ]).
  - reflexivity.
  - constructor.
  - reflexivity.
  - reflexivity.
  - reflexivity.
  - constructor; [| constructor; [| constructor ]].
    + split; [reflexivity |]. left. reflexivity.
    + split; [reflexivity |]. right. repeat constructor.
Defined.

(** ** Bases beyond the documents *)

Section SpareBases.
Variable random : nat -> Qc.

Lemma make_items_spare (bases spare : list value) (docs : list value) :
  forall i,
    i + List.length docs <= List.length bases ->
    make_items docs (VArr (bases ++ spare)) i = make_items docs (VArr bases) i.
Proof.
  induction docs as [| d r IH]; intros i L; [reflexivity |].
  cbn [List.length] in L. cbn [make_items]. rewrite !base_at_array.
  rewrite app_nth1 by lia. rewrite IH by lia. reflexivity.
Qed.

(** X15. Bases beyond the documents are ignored: when the array of the
    bases has at least as many elements as the array of the documents, the
    elements after these change nothing; [regularizeUpsert] returns, or
    throws, as it does without them, and does not look at what they are. *)
Theorem regularizeUpsert_spare_bases (docs bases spare : list value)
        (success error : arg) (n : nat) :
  List.length docs <= List.length bases ->
  regularizeUpsert random (VArr docs) (Val (VArr (bases ++ spare))) success error n
  = regularizeUpsert random (VArr docs) (Val (VArr bases)) success error n.
Proof.
  intros L. unfold regularizeUpsert. cbn [isFunction truthy].
  rewrite make_items_spare by (cbn; exact L). reflexivity.
Qed.
End SpareBases.

Lemma regularizeUpsert_spare_bases_witness :
  regularizeUpsert Sample.half (VArr [ Sample.docA ])
                   (Val (VArr ([ VNull ] ++ [ VStr "no base" ]))) (Fn "done") (Fn "failed") 0
  = regularizeUpsert Sample.half (VArr [ Sample.docA ])
                     (Val (VArr [ VNull ])) (Fn "done") (Fn "failed") 0.
Proof.
  apply (regularizeUpsert_spare_bases Sample.half [ Sample.docA ] [ VNull ]
           [ VStr "no base" ]).
  cbn. lia.
Defined.
